(** * argparse-cxx: a shallow embedding of [argparse.hxx]

    The header declares the argument model (optional flag / value / list,
    required value / list), the command registries with their registration
    and retrieval helpers, and the parser root.  Every member function that
    is defined in the header is embedded below from its body.  Member
    functions that the header only declares are marked as modelled from the
    specification. *)

From Stdlib Require Import Ascii.
From stdpp Require Import base tactics option list strings numbers.

Local Open Scope Z_scope.

#[local] Set Warnings "-register-all".

(** ** Outcomes of a member-function call

    A call on an object either returns a value and leaves the object in a
    new state, lets an exception escape (the object keeps whatever was
    written before the throw), calls [abort()], or reads memory outside the
    token array it was handed (no defined behaviour). *)

Inductive exception : Type :=
  | runtime_error (what : string)
  | conversion_error (text : string).

Inductive outcome (S A : Type) : Type :=
  | Returned (a : A) (s : S)
  | Thrown (e : exception) (s : S)
  | Aborted
  | Undefined.

Arguments Returned {S A} a s.
Arguments Thrown {S A} e s.
Arguments Aborted {S A}.
Arguments Undefined {S A}.

Definition with_state {S S' A : Type} (f : S → S') (o : outcome S A) : outcome S' A :=
  match o with
  | Returned a s => Returned a (f s)
  | Thrown e s => Thrown e (f s)
  | Aborted => Aborted
  | Undefined => Undefined
  end.

(** ** Token windows

    [parse(char const *const *argv, int len)] receives a pointer into the
    argument vector and a count.  [argv] is modelled as the list of tokens
    from the pointer to the end of the vector and [len] as the [int] it is. *)

Definition INT_MAX : Z := 2147483647.
Definition SIZE_MAX : Z := 18446744073709551615.

(** [std::span(argv, len)]: the first [len] tokens, defined only when the
    vector holds that many. *)
Definition span (argv : list string) (len : Z) : option (list string) :=
  if decide (len ≤ Z.of_nat (length argv)) then Some (take (Z.to_nat len) argv) else None.

(** ** The argument model, for one payload type [T]

    [parse_T] stands for the specialisation [argparse::parse<T>], which the
    header declares without a body; [None] is a conversion that raises
    instead of producing a [T]. *)

Section Templates.
Context {T : Type} (parse_T : string → option T).

(** [template <typename T> class optional_value : public optional];
    [std::variant<std::monostate, T>] is [option T]. *)
Record optional_value : Type := mk_optional_value {
  ov_short : ascii;
  ov_long : string;
  ov_desc : string;
  ov_value : option T
}.

(** [template <typename T> class optional_list : public optional] *)
Record optional_list : Type := mk_optional_list {
  ol_short : ascii;
  ol_long : string;
  ol_desc : string;
  ol_values : list T
}.

(** [template <typename T> class required_value : public argument] *)
Record required_value : Type := mk_required_value {
  rv_name : string;
  rv_desc : string;
  rv_value : option T
}.

(** [template <typename T> class required_list : public argument] *)
Record required_list : Type := mk_required_list {
  rl_name : string;
  rl_desc : string;
  rl_values : list T
}.

Definition ov_assign (self : optional_value) (v : option T) : optional_value :=
  mk_optional_value (ov_short self) (ov_long self) (ov_desc self) v.
Definition ol_assign (self : optional_list) (vs : list T) : optional_list :=
  mk_optional_list (ol_short self) (ol_long self) (ol_desc self) vs.
Definition rv_assign (self : required_value) (v : option T) : required_value :=
  mk_required_value (rv_name self) (rv_desc self) v.
Definition rl_assign (self : required_list) (vs : list T) : required_list :=
  mk_required_list (rl_name self) (rl_desc self) vs.

(** [get_value() { return std::get_if<T>(&_value); }] *)
Definition optional_value_get_value (self : optional_value) : option T := ov_value self.
Definition required_value_get_value (self : required_value) : option T := rv_value self.

(** [get_values() { return _values; }] *)
Definition optional_list_get_values (self : optional_list) : list T := ol_values self.
Definition required_list_get_values (self : required_list) : list T := rl_values self.

(** [takes()] *)
Definition optional_value_takes : Z := 1.
Definition required_value_takes : Z := 1.
Definition optional_list_takes : Z := SIZE_MAX.
Definition required_list_takes : Z := SIZE_MAX.

(** [optional_value::parse]:
<<
    if (len < 1) { return -1; }
    _value = argparse::parse<T>(argv[0]);
    return 1;
>>  *)
Definition optional_value_parse (self : optional_value) (argv : list string) (len : Z)
  : outcome optional_value Z :=
  if decide (len < 1) then Returned (-1) self
  else match argv !! 0%nat with
       | None => Undefined
       | Some tok =>
           match parse_T tok with
           | Some x => Returned 1 (ov_assign self (Some x))
           | None => Thrown (conversion_error tok) self
           end
       end.

(** [required_value::parse], the same statements over its own [_value]. *)
Definition required_value_parse (self : required_value) (argv : list string) (len : Z)
  : outcome required_value Z :=
  if decide (len < 1) then Returned (-1) self
  else match argv !! 0%nat with
       | None => Undefined
       | Some tok =>
           match parse_T tok with
           | Some x => Returned 1 (rv_assign self (Some x))
           | None => Thrown (conversion_error tok) self
           end
       end.

(** The range-for loop of the two list specs:
<<
    for (const auto &v : std::span(argv, len)) {
        _values.push_back(argparse::parse<T>(v));
        cnt += 1;
    }
    return cnt;
>>  [cnt] is an [int]; it counts the tokens of a span whose length is an
    [int] already, so it never leaves the range of [int]. *)
Fixpoint push_back_each (vs : list string) (_values : list T) (cnt : Z)
  : outcome (list T) Z :=
  match vs with
  | [] => Returned cnt _values
  | v :: vs' =>
      match parse_T v with
      | Some x => push_back_each vs' (_values ++ [x]) (cnt + 1)
      | None => Thrown (conversion_error v) _values
      end
  end.

(** [optional_list::parse]:
<<
    if (len < 1) { return -1; }
    auto cnt = 0;
    for (...) { ... }
    return cnt;
>>  *)
Definition optional_list_parse (self : optional_list) (argv : list string) (len : Z)
  : outcome optional_list Z :=
  if decide (len < 1) then Returned (-1) self
  else match span argv len with
       | None => Undefined
       | Some vs => with_state (ol_assign self) (push_back_each vs (ol_values self) 0)
       end.

(** [required_list::parse], the same statements over its own [_values]. *)
Definition required_list_parse (self : required_list) (argv : list string) (len : Z)
  : outcome required_list Z :=
  if decide (len < 1) then Returned (-1) self
  else match span argv len with
       | None => Undefined
       | Some vs => with_state (rl_assign self) (push_back_each vs (rl_values self) 0)
       end.

(** A run of calls on one spec, each of which has to succeed (return a
    count that is not negative) for the next one to be made. *)
Fixpoint consume_each {S : Type} (parse : S → list string → Z → outcome S Z)
    (self : S) (calls : list (list string * Z)) : option S :=
  match calls with
  | [] => Some self
  | (argv, len) :: calls' =>
      match parse self argv len with
      | Returned n self' => if decide (0 ≤ n) then consume_each parse self' calls' else None
      | _ => None
      end
  end.

End Templates.

Arguments optional_value T : clear implicits.
Arguments optional_list T : clear implicits.
Arguments required_value T : clear implicits.
Arguments required_list T : clear implicits.

(** ** The command registries, over an open family of payload types

    [ty] names the payload types a program instantiates the templates with,
    [den t] is the C++ type behind a name and [conv t] its specialisation of
    [argparse::parse]. *)

(** [class optional_flag : public optional], with the [size_t] counter and
    the [bool] it declares. *)
Record optional_flag : Type := mk_optional_flag {
  of_short : ascii;
  of_long : string;
  of_desc : string;
  _cnt : Z;
  _flag : bool
}.

Section Registry.
Context {ty : Type} `{!EqDecision ty} (den : ty → Type).
Context (conv : ∀ t : ty, string → option (den t)).

(** What a [std::unique_ptr<optional>] points to: an object of one of the
    three derived classes. *)
Inductive optional : Type :=
  | ptr_optional_flag (f : optional_flag)
  | ptr_optional_value (t : ty) (v : optional_value (den t))
  | ptr_optional_list (t : ty) (l : optional_list (den t)).

(** What a [std::unique_ptr<argument>] in [_required] points to. *)
Inductive argument : Type :=
  | ptr_required_value (t : ty) (v : required_value (den t))
  | ptr_required_list (t : ty) (l : required_list (den t)).

(** The template arguments [Opt] and [Arg] of the registration helpers. *)
Inductive optional_class : Type :=
  | class_optional_flag
  | class_optional_value (t : ty)
  | class_optional_list (t : ty).

Inductive argument_class : Type :=
  | class_required_value (t : ty)
  | class_required_list (t : ty).

#[local] Instance optional_class_eq_dec : EqDecision optional_class.
Proof. solve_decision. Defined.

#[local] Instance argument_class_eq_dec : EqDecision argument_class.
Proof. solve_decision. Defined.

Definition dynamic_class_optional (o : optional) : optional_class :=
  match o with
  | ptr_optional_flag _ => class_optional_flag
  | ptr_optional_value t _ => class_optional_value t
  | ptr_optional_list t _ => class_optional_list t
  end.

Definition dynamic_class_argument (a : argument) : argument_class :=
  match a with
  | ptr_required_value t _ => class_required_value t
  | ptr_required_list t _ => class_required_list t
  end.

(** Modelled from the spec: [optional::abbr], declared in the header as
    [auto abbr() -> std::tuple<char, std::string_view>] without a body; it
    hands out the short character and the long name the spec was made with. *)
Definition abbr (o : optional) : ascii * string :=
  match o with
  | ptr_optional_flag f => (of_short f, of_long f)
  | ptr_optional_value _ v => (ov_short v, ov_long v)
  | ptr_optional_list _ l => (ol_short l, ol_long l)
  end.

(** Modelled from the spec: [argument::name], declared in the header
    without a body; it hands out the name the spec was made with. *)
Definition name (a : argument) : string :=
  match a with
  | ptr_required_value _ v => rv_name v
  | ptr_required_list _ l => rl_name l
  end.

(** Modelled from the spec: the constructor of [optional_flag], declared in
    the header without a body; a new flag has not occurred and is not set.
    The constructors of the four templates are in the header: [_value] starts
    as [std::monostate] and [_values] empty. *)
Definition make_unique_optional (Opt : optional_class) (_short : ascii) (_long _desc : string)
  : optional :=
  match Opt with
  | class_optional_flag => ptr_optional_flag (mk_optional_flag _short _long _desc 0 false)
  | class_optional_value t => ptr_optional_value t (mk_optional_value _short _long _desc None)
  | class_optional_list t => ptr_optional_list t (mk_optional_list _short _long _desc [])
  end.

Definition make_unique_argument (Arg : argument_class) (_name _desc : string) : argument :=
  match Arg with
  | class_required_value t => ptr_required_value t (mk_required_value _name _desc None)
  | class_required_list t => ptr_required_list t (mk_required_list _name _desc [])
  end.

(** [class command : public argument] *)
Inductive command : Type := mk_command {
  cmd_name : string;
  cmd_desc : string;
  _base : string;
  _optional : list optional;
  _required : list argument;
  _commands : list command
}.

Definition with_optional (self : command) (opts : list optional) : command :=
  mk_command (cmd_name self) (cmd_desc self) (_base self) opts (_required self) (_commands self).
Definition with_required (self : command) (reqs : list argument) : command :=
  mk_command (cmd_name self) (cmd_desc self) (_base self) (_optional self) reqs (_commands self).
Definition with_commands (self : command) (cmds : list command) : command :=
  mk_command (cmd_name self) (cmd_desc self) (_base self) (_optional self) (_required self) cmds.

(** The invariant of the registries: "no two Optional Specs in one Command
    share a short flag or long flag; no two Required Specs in one Command
    share a name". *)
Definition distinct_flags (self : command) : Prop :=
  NoDup ((λ o, (abbr o).1) <$> _optional self)
  ∧ NoDup ((λ o, (abbr o).2) <$> _optional self).

Definition distinct_names (self : command) : Prop :=
  NoDup (name <$> _required self).

(** [command::add_optional_arg<Opt>].  The reference it returns is to the
    object behind [_optional.back()]; objects are owned through
    [unique_ptr] and never removed, so the position in [_optional] names the
    object from then on. *)
Definition add_optional_arg (Opt : optional_class) (self : command)
    (_short : ascii) (_long _desc : string) : outcome command nat :=
  let opt := make_unique_optional Opt _short _long _desc in
  if existsb (λ ptr, let '(s, l) := abbr ptr in
                     bool_decide (s = _short) || bool_decide (l = _long))
             (_optional self)
  then
    let msg := "Duplicated optional argument for " +:+ String _short EmptyString +:+ "/" +:+ _long in
    Thrown (runtime_error msg) self
  else
    Returned (length (_optional self)) (with_optional self (_optional self ++ [opt])).

(** [command::add_required_arg<Arg>].  Its return type is deduced and the
    body has no [return]: the function returns [void]. *)
Definition add_required_arg (Arg : argument_class) (self : command)
    (_name _desc : string) : outcome command () :=
  let arg := make_unique_argument Arg _name _desc in
  if existsb (λ ptr, bool_decide (_name = name ptr)) (_required self)
  then
    let msg := "Duplicated required argument for " +:+ _name in
    Thrown (runtime_error msg) self
  else
    Returned () (with_required self (_required self ++ [arg])).

(** The public registration methods. *)
Definition add_opt_flag (self : command) (flag : ascii) (long_flag description : string)
  : outcome command nat :=
  add_optional_arg class_optional_flag self flag long_flag description.

Definition add_opt_value (t : ty) (self : command) (flag : ascii) (long_flag description : string)
  : outcome command nat :=
  add_optional_arg (class_optional_value t) self flag long_flag description.

Definition add_opt_list (t : ty) (self : command) (flag : ascii) (long_flag description : string)
  : outcome command nat :=
  add_optional_arg (class_optional_list t) self flag long_flag description.

(** [add_req_value<T>(name, description)] and the two-argument
    [add_req_list<T>] are declared to return [optional_value<T> const &] and
    [optional_list<T> const &] and return the (void) call of
    [add_required_arg]; all there is to embed is that call. *)
Definition add_req_value (t : ty) (self : command) (name description : string)
  : outcome command () :=
  add_required_arg (class_required_value t) self name description.

Definition add_req_list (t : ty) (self : command) (name description : string)
  : outcome command () :=
  add_required_arg (class_required_list t) self name description.

(** The three-argument overload [add_req_list<T>(flag, long_flag, description)]. *)
Definition add_req_list_flag (t : ty) (self : command) (flag : ascii)
    (long_flag description : string) : outcome command nat :=
  add_optional_arg (class_optional_list t) self flag long_flag description.

(** [command::get_optional<T>]: the first spec whose long name is [_long],
    [abort()] when there is none; [dynamic_cast] gives a null pointer, which
    is then dereferenced, when that spec is of another class. *)
Definition get_optional (T : optional_class) (self : command) (_long : string)
  : outcome command optional :=
  let v := filter (λ ptr, (abbr ptr).2 = _long) (_optional self) in
  match v with
  | [] => Aborted
  | ptr :: _ =>
      if decide (dynamic_class_optional ptr = T) then Returned ptr self else Undefined
  end.

(** [command::get_required<T>] *)
Definition get_required (T : argument_class) (self : command) (_name : string)
  : outcome command argument :=
  let v := filter (λ ptr, name ptr = _name) (_required self) in
  match v with
  | [] => Aborted
  | ptr :: _ =>
      if decide (dynamic_class_argument ptr = T) then Returned ptr self else Undefined
  end.

Definition get_opt_flag (self : command) (long_flag : string) : outcome command optional :=
  get_optional class_optional_flag self long_flag.
Definition get_opt_value (t : ty) (self : command) (long_flag : string) : outcome command optional :=
  get_optional (class_optional_value t) self long_flag.
Definition get_opt_list (t : ty) (self : command) (long_flag : string) : outcome command optional :=
  get_optional (class_optional_list t) self long_flag.
Definition get_req_value (t : ty) (self : command) (name : string) : outcome command argument :=
  get_required (class_required_value t) self name.
Definition get_req_list (t : ty) (self : command) (name : string) : outcome command argument :=
  get_required (class_required_list t) self name.

(** ** The parsing engine

    [optional_flag::parse], [optional_flag::cnt], [optional_flag::is_set],
    [optional_flag::takes] and [command::parse] are declared in the header
    and defined elsewhere; they are modelled from sections 4.1 and 4.3 of
    the specification. *)

(** Modelled from the spec: [optional_flag::takes], "flag=0". *)
Definition optional_flag_takes : Z := 0.

(** Modelled from the spec: what a match does to the members of a flag,
    "increments its occurrence counter and sets its boolean by virtue of
    being matched at all".  The counter is the [size_t] of the header. *)
Definition occurred (self : optional_flag) : optional_flag :=
  mk_optional_flag (of_short self) (of_long self) (of_desc self)
                   ((_cnt self + 1) `mod` (SIZE_MAX + 1)) true.

(** Modelled from the spec: [optional_flag::parse], declared in the header
    without a body: "a flag-type instance ignores any following tokens
    (arity 0)" and occurs once more; no token is consumed. *)
Definition optional_flag_parse (self : optional_flag) (argv : list string) (len : Z)
  : outcome optional_flag Z :=
  Returned 0 (occurred self).

(** Modelled from the spec: [optional_flag::cnt], declared in the header
    without a body: the "occurrence count". *)
Definition cnt (self : optional_flag) : Z := _cnt self.

(** Modelled from the spec: [optional_flag::is_set], declared in the header
    without a body: the boolean "is set". *)
Definition is_set (self : optional_flag) : bool := _flag self.

(** The virtual calls [ptr->takes()] and [ptr->parse(argv, len)]. *)
Definition optional_takes (o : optional) : Z :=
  match o with
  | ptr_optional_flag _ => optional_flag_takes
  | ptr_optional_value _ _ => optional_value_takes
  | ptr_optional_list _ _ => optional_list_takes
  end.

Definition optional_parse (o : optional) (argv : list string) (len : Z)
  : outcome optional Z :=
  match o with
  | ptr_optional_flag f => with_state ptr_optional_flag (optional_flag_parse f argv len)
  | ptr_optional_value t v =>
      with_state (ptr_optional_value t) (optional_value_parse (conv t) v argv len)
  | ptr_optional_list t l =>
      with_state (ptr_optional_list t) (optional_list_parse (conv t) l argv len)
  end.

Definition argument_parse (a : argument) (argv : list string) (len : Z)
  : outcome argument Z :=
  match a with
  | ptr_required_value t v =>
      with_state (ptr_required_value t) (required_value_parse (conv t) v argv len)
  | ptr_required_list t l =>
      with_state (ptr_required_list t) (required_list_parse (conv t) l argv len)
  end.

(** Modelled from the spec: step 1 of section 4.3, "the current token is
    classified as (a) a long flag if it begins with the two-dash prefix,
    (b) a short flag (or short-flag group) if it begins with a single dash
    and is not exactly the lone dash, (c) otherwise a positional/subcommand
    candidate". *)
Inductive token_class : Type :=
  | long_flag (stripped : string)
  | short_group (chars : list ascii)
  | candidate.

(** Modelled from the spec: the classification itself; the long name is
    what follows the two dashes ("strip the prefix"), the group the
    characters that follow the single dash. *)
Definition classify (tok : string) : token_class :=
  match tok with
  | String "-" (String "-" stripped) => long_flag stripped
  | String "-" (String c rest) => short_group (c :: Stdlib.Strings.String.list_ascii_of_string rest)
  | _ => candidate
  end.

(** Modelled from the spec: a token "classifies as a flag" when it is a
    long flag or a short flag or group. *)
Definition classifies_as_flag (tok : string) : bool :=
  match classify tok with
  | candidate => false
  | _ => true
  end.

(** Modelled from the spec: the window a spec is offered is "constrained to
    stop before the next token that classifies as a flag"; this is the
    number of tokens before that one. *)
Fixpoint before_next_flag (argv : list string) : nat :=
  match argv with
  | [] => 0%nat
  | tok :: rest => if classifies_as_flag tok then 0%nat else S (before_next_flag rest)
  end.

(** Modelled from the spec: the error kinds of section 7 that arise while
    parsing, each with the token or the spec name it is about. *)
Inductive parse_error : Type :=
  | UnknownOption (tok : string)
  | MissingValue (tok : string)
  | ConversionFailure (text : string)
  | UnsatisfiedRequired (spec : string)
  | UnexpectedToken (tok : string)
  | AmbiguousShortGroup (tok : string).

(** Modelled from the spec: what one invocation of the engine yields, "an
    integer tokens consumed (>= 0) or a negative sentinel for failure". *)
Inductive parse_result : Type :=
  | Consumed (n : Z)
  | Failed (e : parse_error).

(** Modelled from the spec: the integer an internal command node returns. *)
Definition result_code (r : parse_result) : Z :=
  match r with
  | Consumed n => n
  | Failed _ => -1
  end.

(** Modelled from the spec: "delegate the remaining window to the matched
    Optional Spec's consume"; the spec at position [i] of [_optional] is
    handed the window [argv], cut before the next flag, and the object is
    updated in place. *)
Definition deliver_optional (self : command) (i : nat) (argv : list string)
  : outcome command Z :=
  match _optional self !! i with
  | None => Undefined
  | Some o =>
      with_state (λ o', with_optional self (<[i:=o']> (_optional self)))
                 (optional_parse o argv (Z.of_nat (before_next_flag argv)))
  end.

(** Modelled from the spec: a Required Spec "is offered the remaining
    window via consume, constrained to stop before the next token that
    classifies as a flag". *)
Definition deliver_required (self : command) (i : nat) (argv : list string)
  : outcome command Z :=
  match _required self !! i with
  | None => Undefined
  | Some a =>
      with_state (λ a', with_required self (<[i:=a']> (_required self)))
                 (argument_parse a argv (Z.of_nat (before_next_flag argv)))
  end.

(** The command in which the flag at position [i] has become [f]. *)
Definition set_flag (self : command) (i : nat) (f : optional_flag) : command :=
  with_optional self (<[i:=ptr_optional_flag f]> (_optional self)).

(** Modelled from the spec: "if all characters resolve to flag-type specs
    (arity 0), each is incremented once"; the characters are matched in
    order. *)
Fixpoint deliver_group (self : command) (hits : list nat) (argv : list string)
  : outcome command Z :=
  match hits with
  | [] => Returned 0 self
  | i :: hits' =>
      match deliver_optional self i argv with
      | Returned _ self' => deliver_group self' hits' argv
      | other => other
      end
  end.

(** Modelled from the spec: "look up by exact long-name match". *)
Definition find_long (self : command) (stripped : string) : option (nat * optional) :=
  list_find (λ o, (abbr o).2 = stripped) (_optional self).

(** Modelled from the spec: "each character is resolved independently
    against registered short flags". *)
Definition find_short (self : command) (c : ascii) : option (nat * optional) :=
  list_find (λ o, (abbr o).1 = c) (_optional self).

(** Modelled from the spec: "the token is checked against child-command
    names". *)
Definition find_command (self : command) (tok : string) : option (nat * command) :=
  list_find (λ c, cmd_name c = tok) (_commands self).

(** Modelled from the spec: what the engine does with the outcome of a
    spec's [parse]: a negative count is MissingValue, an escaping conversion
    is ConversionFailure, and a count [n] lets [continue] go on behind the
    [n] tokens. *)
Definition after_consume (tok : string) (o : outcome command Z)
    (continue : command → Z → option (outcome command parse_result))
  : option (outcome command parse_result) :=
  match o with
  | Returned n self' =>
      if decide (n < 0) then Some (Returned (Failed (MissingValue tok)) self')
      else continue self' n
  | Thrown (conversion_error text) self' => Some (Returned (Failed (ConversionFailure text)) self')
  | Thrown e self' => Some (Thrown e self')
  | Aborted => Some Aborted
  | Undefined => Some Undefined
  end.

(** Modelled from the spec: [command::parse], the state machine of section
    4.3 over a shrinking token window.  [satisfied] counts the Required
    Specs that have consumed, [consumed] the tokens behind the window.
    Every round shortens the window; [fuel] bounds the rounds and [None] is
    a run that was given too little of it. *)
Fixpoint parse_window (fuel : nat) (self : command) (satisfied : nat)
    (argv : list string) (consumed : Z) : option (outcome command parse_result) :=
  match fuel with
  | O => None
  | S fuel' =>
      match argv with
      | [] =>
          (* 5. termination *)
          match _required self !! satisfied with
          | Some a => Some (Returned (Failed (UnsatisfiedRequired (name a))) self)
          | None => Some (Returned (Consumed consumed) self)
          end
      | tok :: rest =>
          match classify tok with
          | long_flag stripped =>
              (* 2. long-flag handling *)
              match find_long self stripped with
              | None => Some (Returned (Failed (UnknownOption tok)) self)
              | Some (i, _) =>
                  after_consume tok (deliver_optional self i rest)
                    (λ self' n, parse_window fuel' self' satisfied
                                  (drop (Z.to_nat n) rest) (consumed + 1 + n))
              end
          | short_group chars =>
              (* 3. short-flag handling *)
              match mapM (find_short self) chars with
              | None => Some (Returned (Failed (UnknownOption tok)) self)
              | Some hits =>
                  if forallb (λ hit, bool_decide (optional_takes hit.2 = 0)) hits then
                    after_consume tok (deliver_group self hits.*1 rest)
                      (λ self' _, parse_window fuel' self' satisfied rest (consumed + 1))
                  else
                    match hits with
                    | [(i, _)] =>
                        after_consume tok (deliver_optional self i rest)
                          (λ self' n, parse_window fuel' self' satisfied
                                        (drop (Z.to_nat n) rest) (consumed + 1 + n))
                    | _ => Some (Returned (Failed (AmbiguousShortGroup tok)) self)
                    end
              end
          | candidate =>
              (* 4. positional handling *)
              match _required self !! satisfied with
              | Some _ =>
                  after_consume tok (deliver_required self satisfied argv)
                    (λ self' n, parse_window fuel' self' (S satisfied)
                                  (drop (Z.to_nat n) argv) (consumed + n))
              | None =>
                  match find_command self tok with
                  | Some (i, child) =>
                      with_state (λ child', with_commands self (<[i:=child']> (_commands self)))
                        <$> parse_window fuel' child 0%nat rest 0
                  | None => Some (Returned (Failed (UnexpectedToken tok)) self)
                  end
              end
          end
      end
  end.

(** Modelled from the spec: the entry of one invocation, on the whole
    window with no Required Spec satisfied and nothing consumed.  A window
    of [n] tokens needs at most [n] rounds and the closing one. *)
Definition command_parse (self : command) (argv : list string)
  : option (outcome command parse_result) :=
  parse_window (S (length argv)) self 0%nat argv 0.

End Registry.

Arguments optional {ty} den.
Arguments argument {ty} den.
Arguments command {ty} den.
Arguments ptr_optional_flag {ty den} f.
Arguments ptr_optional_value {ty den} t v.
Arguments ptr_optional_list {ty den} t l.
Arguments ptr_required_value {ty den} t v.
Arguments ptr_required_list {ty den} t l.
Arguments mk_command {ty den} cmd_name cmd_desc _base _optional _required _commands.
Arguments cmd_name {ty den} c.
Arguments cmd_desc {ty den} c.
Arguments _base {ty den} c.
Arguments _optional {ty den} c.
Arguments _required {ty den} c.
Arguments _commands {ty den} c.
Arguments with_optional {ty den} self opts.
Arguments with_required {ty den} self reqs.
Arguments with_commands {ty den} self cmds.
Arguments abbr {ty den} o.
Arguments name {ty den} a.
Arguments dynamic_class_optional {ty den} o.
Arguments dynamic_class_argument {ty den} a.
Arguments distinct_flags {ty den} self.
Arguments distinct_names {ty den} self.
Arguments add_optional_arg {ty den} Opt self _short _long _desc.
Arguments add_required_arg {ty den} Arg self _name _desc.
Arguments add_opt_flag {ty den} self flag long_flag description.
Arguments add_opt_value {ty den} t self flag long_flag description.
Arguments add_opt_list {ty den} t self flag long_flag description.
Arguments add_req_value {ty den} t self name description.
Arguments add_req_list {ty den} t self name description.
Arguments add_req_list_flag {ty den} t self flag long_flag description.
Arguments get_optional {ty _ den} T self _long.
Arguments get_required {ty _ den} T self _name.
Arguments get_opt_flag {ty _ den} self long_flag.
Arguments get_opt_value {ty _ den} t self long_flag.
Arguments get_opt_list {ty _ den} t self long_flag.
Arguments get_req_value {ty _ den} t self name.
Arguments get_req_list {ty _ den} t self name.
Arguments optional_takes {ty den} o.
Arguments optional_parse {ty den} conv o argv len.
Arguments argument_parse {ty den} conv a argv len.
Arguments deliver_optional {ty den} conv self i argv.
Arguments deliver_required {ty den} conv self i argv.
Arguments deliver_group {ty den} conv self hits argv.
Arguments set_flag {ty den} self i f.
Arguments find_long {ty den} self stripped.
Arguments find_short {ty den} self c.
Arguments find_command {ty den} self tok.
Arguments after_consume {ty den} tok o continue.
Arguments parse_window {ty den} conv fuel self satisfied argv consumed.
Arguments command_parse {ty den} conv self argv.

(** ** The built-in payload types

    "Currently only int and std::string are already implemented." *)

Inductive builtin : Type :=
  | builtin_int
  | builtin_string.

#[global] Instance builtin_eq_dec : EqDecision builtin.
Proof. solve_decision. Defined.

Definition builtin_type (t : builtin) : Type :=
  match t with
  | builtin_int => Z
  | builtin_string => string
  end.

Definition INT_MIN : Z := -2147483648.

(** Modelled from the spec: base-10 digits, for [argparse::parse<int>]. *)
Definition digit_value (c : ascii) : option Z :=
  let n := Z.of_nat (nat_of_ascii c) in
  if decide (48 ≤ n ≤ 57) then Some (n - 48) else None.

(** Modelled from the spec: the number a run of digits writes; "fails on
    non-numeric" text. *)
Fixpoint digits_value (acc : Z) (s : string) : option Z :=
  match s with
  | EmptyString => Some acc
  | String c s' => d ← digit_value c; digits_value (10 * acc + d) s'
  end.

(** Modelled from the spec: "full-range", "fails on ... out-of-range text". *)
Definition in_int_range (n : Z) : option Z :=
  if decide (INT_MIN ≤ n ≤ INT_MAX) then Some n else None.

(** Modelled from the spec: the specialisation [argparse::parse<int>],
    declared in the header without a body: "signed integer (full-range,
    base-10, fails on non-numeric or out-of-range text)". *)
Definition parse_int (s : string) : option Z :=
  match s with
  | EmptyString => None
  | String "-" (String c s') => n ← digits_value 0 (String c s'); in_int_range (- n)
  | _ => n ← digits_value 0 s; in_int_range n
  end.

(** Modelled from the spec: the specialisation [argparse::parse<std::string>],
    declared in the header without a body: "verbatim string (always
    succeeds, identity transform)". *)
Definition parse_string (s : string) : option string := Some s.

Definition parse_builtin (t : builtin) : string → option (builtin_type t) :=
  match t with
  | builtin_int => parse_int
  | builtin_string => parse_string
  end.

(** What a call returned, when it returned, and the state it left. *)
Definition return_value {S A : Type} (o : outcome S A) : option A :=
  match o with
  | Returned a _ => Some a
  | _ => None
  end.

Definition state_after {S A : Type} (o : outcome S A) : option S :=
  match o with
  | Returned _ s => Some s
  | Thrown _ s => Some s
  | _ => None
  end.

(** The outcomes a [parse] of a spec has on a window that lies inside the
    argument vector: a return, or a conversion error that escapes. *)
Definition returns_or_conversion_error {S A : Type} (o : outcome S A) : Prop :=
  match o with
  | Returned _ _ => True
  | Thrown (conversion_error _) _ => True
  | _ => False
  end.

(** ** Building a command

    A program builds its command by a run of registration calls; a
    [std::runtime_error] that escapes one of them ends the run. *)

Inductive registration {ty : Type} : Type :=
  | register_optional (Opt : @optional_class ty) (_short : ascii) (_long _desc : string)
  | register_required (Arg : @argument_class ty) (_name _desc : string).

Arguments registration ty : clear implicits.

(** The object a registration call makes with [std::make_unique]. *)
Definition registered_optional {ty : Type} (den : ty → Type) (r : registration ty)
  : option (optional den) :=
  match r with
  | register_optional Opt _short _long _desc =>
      Some (make_unique_optional den Opt _short _long _desc)
  | register_required _ _ _ => None
  end.

Definition registered_argument {ty : Type} (den : ty → Type) (r : registration ty)
  : option (argument den) :=
  match r with
  | register_optional _ _ _ _ => None
  | register_required Arg _name _desc => Some (make_unique_argument den Arg _name _desc)
  end.

(** The calls in order, on the command as the earlier calls left it. *)
Fixpoint register_each {ty : Type} {den : ty → Type} (self : command den)
    (calls : list (registration ty)) : outcome (command den) () :=
  match calls with
  | [] => Returned () self
  | register_optional Opt _short _long _desc :: calls' =>
      match add_optional_arg Opt self _short _long _desc with
      | Returned _ self' => register_each self' calls'
      | Thrown e self' => Thrown e self'
      | Aborted => Aborted
      | Undefined => Undefined
      end
  | register_required Arg _name _desc :: calls' =>
      match add_required_arg Arg self _name _desc with
      | Returned _ self' => register_each self' calls'
      | Thrown e self' => Thrown e self'
      | Aborted => Aborted
      | Undefined => Undefined
      end
  end.

(** ** Commands used as examples *)

(** Modelled from the spec: the constructor [command(_name, _desc)],
    declared in the header without a body; a new command has registered
    nothing. *)
Definition new_command (name desc : string) : command builtin_type :=
  mk_command name desc EmptyString [] [] [].

(** [root.add_opt_flag('v', "verbose", "more output")] *)
Definition verbose_root : command builtin_type :=
  mk_command "root" "the root" EmptyString
    [ptr_optional_flag (mk_optional_flag "v" "verbose" "more output" 0 false)] [] [].

(** [root.add_req_list<std::string>("files", "inputs")] then
    [root.add_opt_flag('f', "flag", "a flag")] *)
Definition files_root : command builtin_type :=
  mk_command "root" "the root" EmptyString
    [ptr_optional_flag (mk_optional_flag "f" "flag" "a flag" 0 false)]
    [ptr_required_list builtin_string (mk_required_list "files" "inputs" [])] [].

(** [root.add_req_value<int>("count", "how many")] *)
Definition count_root : command builtin_type :=
  mk_command "root" "the root" EmptyString []
    [ptr_required_value builtin_int (mk_required_value "count" "how many" None)] [].

(** [root.add_opt_value<std::string>('n', "name", "who")] *)
Definition name_root : command builtin_type :=
  mk_command "root" "the root" EmptyString
    [ptr_optional_value builtin_string (mk_optional_value "n" "name" "who" None)] [] [].

(** A [root] whose subcommand [child] requires the positional [x]. *)
Definition child_command : command builtin_type :=
  mk_command "child" "a child" EmptyString []
    [ptr_required_value builtin_int (mk_required_value "x" "a number" None)] [].

Definition parent_root : command builtin_type :=
  mk_command "root" "the root" EmptyString [] [] [child_command].

(** * Properties *)

(** ** The argument model *)

Section TemplateFacts.
Context {T : Type} (parse_T : string → option T).

Lemma span_Some (argv : list string) (len : Z) (vs : list string) :
  span argv len = Some vs ↔ len ≤ Z.of_nat (length argv) ∧ vs = take (Z.to_nat len) argv.
Proof.
  unfold span. destruct (decide (len ≤ Z.of_nat (length argv))) as [Hle|Hgt].
  - split; [intros [= <-]; auto | intros [_ ->]; reflexivity].
  - split; [discriminate | intros [Hle _]; contradiction].
Qed.

Lemma span_length (argv : list string) (len : Z) (vs : list string) :
  0 ≤ len → span argv len = Some vs → Z.of_nat (length vs) = len.
Proof.
  intros Hpos [Hle ->]%span_Some. rewrite length_take. lia.
Qed.

(** The loop returns exactly when every token converts; it then has pushed
    the converted tokens behind what was stored and counted them. *)
Lemma push_back_each_Some (vs : list string) :
  ∀ (_values : list T) (n : Z) (xs : list T),
    mapM parse_T vs = Some xs →
    push_back_each parse_T vs _values n
    = Returned (n + Z.of_nat (length vs)) (_values ++ xs).
Proof.
  induction vs as [|v vs IH]; intros vals n xs Hxs; simpl in *.
  - injection Hxs as <-. rewrite app_nil_r, Z.add_0_r. reflexivity.
  - destruct (parse_T v) as [x|]; simpl in Hxs; [|discriminate].
    destruct (mapM parse_T vs) as [xs'|] eqn:Hm; simpl in Hxs; [|discriminate].
    injection Hxs as <-. rewrite (IH _ _ xs' eq_refl), <- app_assoc. simpl.
    f_equal. lia.
Qed.

Lemma push_back_each_Returned (vs : list string) :
  ∀ (_values : list T) (n m : Z) (_values' : list T),
    push_back_each parse_T vs _values n = Returned m _values' →
    ∃ xs, mapM parse_T vs = Some xs
          ∧ m = n + Z.of_nat (length vs) ∧ _values' = _values ++ xs.
Proof.
  induction vs as [|v vs IH]; intros vals n m vals' Hrun; simpl in *.
  - injection Hrun as <- <-. exists []. rewrite app_nil_r. split_and!; [done|lia|done].
  - destruct (parse_T v) as [x|]; [|discriminate].
    apply IH in Hrun as (xs & -> & -> & ->). exists (x :: xs). simpl.
    rewrite <- app_assoc. split_and!; [done|lia|done].
Qed.

(** A throw leaves what was stored before the call and the values pushed
    before the offending token. *)
Lemma push_back_each_Thrown (vs : list string) :
  ∀ (_values : list T) (n : Z) (e : exception) (_values' : list T),
    push_back_each parse_T vs _values n = Thrown e _values' →
    ∃ pre bad post xs, vs = pre ++ bad :: post ∧ mapM parse_T pre = Some xs
                       ∧ parse_T bad = None ∧ e = conversion_error bad
                       ∧ _values' = _values ++ xs.
Proof.
  induction vs as [|v vs IH]; intros vals n e vals' Hrun; simpl in *; [discriminate|].
  destruct (parse_T v) as [x|] eqn:Hv.
  - apply IH in Hrun as (pre & bad & post & xs & -> & Hpre & Hbad & -> & ->).
    exists (v :: pre), bad, post, (x :: xs). simpl. rewrite Hv, Hpre, <- app_assoc.
    split_and!; done.
  - injection Hrun as <- <-. exists [], v, vs, []. rewrite app_nil_r. split_and!; done.
Qed.

Lemma with_state_Returned {S S' A : Type} (f : S → S') (o : outcome S A) (a : A) (s' : S') :
  with_state f o = Returned a s' ↔ ∃ s, o = Returned a s ∧ s' = f s.
Proof.
  destruct o; simpl; split; try discriminate; try (intros (? & ? & ?); discriminate).
  - intros [= <- <-]. eauto.
  - intros (s0 & [= <- <-] & ->). reflexivity.
Qed.

Lemma state_after_with_state {S S' A : Type} (f : S → S') (o : outcome S A) (s' : S') :
  state_after (with_state f o) = Some s' ↔ ∃ s, state_after o = Some s ∧ s' = f s.
Proof.
  destruct o; simpl; split; try done; try (by intros (? & ? & ?)).
  - intros [= <-]. eauto.
  - intros (s0 & [= <-] & ->). done.
  - intros [= <-]. eauto.
  - intros (s0 & [= <-] & ->). done.
Qed.

(** *** What each [parse] does, case by case *)





Lemma optional_value_parse_token (self : optional_value T) (argv : list string) (len : Z)
    (tok : string) (x : T) :
  1 ≤ len → argv !! 0%nat = Some tok → parse_T tok = Some x →
  optional_value_parse parse_T self argv len = Returned 1 (ov_assign self (Some x)).
Proof.
  intros Hlen Htok Hx. unfold optional_value_parse.
  rewrite decide_False by lia. rewrite Htok, Hx. reflexivity.
Qed.

Lemma required_value_parse_token (self : required_value T) (argv : list string) (len : Z)
    (tok : string) (x : T) :
  1 ≤ len → argv !! 0%nat = Some tok → parse_T tok = Some x →
  required_value_parse parse_T self argv len = Returned 1 (rv_assign self (Some x)).
Proof.
  intros Hlen Htok Hx. unfold required_value_parse.
  rewrite decide_False by lia. rewrite Htok, Hx. reflexivity.
Qed.

Lemma optional_list_parse_tokens (self : optional_list T) (argv : list string) (len : Z)
    (xs : list T) :
  1 ≤ len → len ≤ Z.of_nat (length argv) →
  mapM parse_T (take (Z.to_nat len) argv) = Some xs →
  optional_list_parse parse_T self argv len
  = Returned len (ol_assign self (ol_values self ++ xs)).
Proof.
  intros Hlen Hfit Hxs. unfold optional_list_parse, span.
  rewrite decide_False by lia. rewrite decide_True by done.
  rewrite (push_back_each_Some _ _ _ _ Hxs). simpl.
  rewrite length_take. do 2 f_equal. lia.
Qed.

Lemma required_list_parse_tokens (self : required_list T) (argv : list string) (len : Z)
    (xs : list T) :
  1 ≤ len → len ≤ Z.of_nat (length argv) →
  mapM parse_T (take (Z.to_nat len) argv) = Some xs →
  required_list_parse parse_T self argv len
  = Returned len (rl_assign self (rl_values self ++ xs)).
Proof.
  intros Hlen Hfit Hxs. unfold required_list_parse, span.
  rewrite decide_False by lia. rewrite decide_True by done.
  rewrite (push_back_each_Some _ _ _ _ Hxs). simpl.
  rewrite length_take. do 2 f_equal. lia.
Qed.

(** Conversely, a call that returned a count on a non-empty window has
    converted what it stored. *)
Lemma optional_value_parse_Returned (self self' : optional_value T) (argv : list string)
    (len n : Z) :
  optional_value_parse parse_T self argv len = Returned n self' →
  (len < 1 ∧ n = -1 ∧ self' = self)
  ∨ (1 ≤ len ∧ n = 1 ∧ ∃ tok x, argv !! 0%nat = Some tok ∧ parse_T tok = Some x
                                ∧ self' = ov_assign self (Some x)).
Proof.
  unfold optional_value_parse. destruct (decide (len < 1)) as [Hlen|Hlen].
  - intros [= <- <-]. left. done.
  - destruct (argv !! 0%nat) as [tok|] eqn:Htok; [|discriminate].
    destruct (parse_T tok) as [x|] eqn:Hx; [|discriminate].
    intros [= <- <-]. right. split_and!; [lia|done|]. eauto.
Qed.

Lemma required_value_parse_Returned (self self' : required_value T) (argv : list string)
    (len n : Z) :
  required_value_parse parse_T self argv len = Returned n self' →
  (len < 1 ∧ n = -1 ∧ self' = self)
  ∨ (1 ≤ len ∧ n = 1 ∧ ∃ tok x, argv !! 0%nat = Some tok ∧ parse_T tok = Some x
                                ∧ self' = rv_assign self (Some x)).
Proof.
  unfold required_value_parse. destruct (decide (len < 1)) as [Hlen|Hlen].
  - intros [= <- <-]. left. done.
  - destruct (argv !! 0%nat) as [tok|] eqn:Htok; [|discriminate].
    destruct (parse_T tok) as [x|] eqn:Hx; [|discriminate].
    intros [= <- <-]. right. split_and!; [lia|done|]. eauto.
Qed.

Lemma optional_list_parse_Returned (self self' : optional_list T) (argv : list string)
    (len n : Z) :
  optional_list_parse parse_T self argv len = Returned n self' →
  (len < 1 ∧ n = -1 ∧ self' = self)
  ∨ (1 ≤ len ∧ len ≤ Z.of_nat (length argv) ∧ n = len
     ∧ ∃ xs, mapM parse_T (take (Z.to_nat len) argv) = Some xs
             ∧ self' = ol_assign self (ol_values self ++ xs)).
Proof.
  unfold optional_list_parse. destruct (decide (len < 1)) as [Hlen|Hlen].
  - intros [= <- <-]. left. done.
  - destruct (span argv len) as [vs|] eqn:Hspan; [|discriminate].
    intros (vals & Hrun & ->)%with_state_Returned.
    apply push_back_each_Returned in Hrun as (xs & Hxs & -> & ->).
    assert (Z.of_nat (length vs) = len) as Hvs by (apply (span_length argv); [lia|done]).
    apply span_Some in Hspan as [Hfit ->].
    right. split_and!; [lia|done|lia|]. eauto.
Qed.

Lemma required_list_parse_Returned (self self' : required_list T) (argv : list string)
    (len n : Z) :
  required_list_parse parse_T self argv len = Returned n self' →
  (len < 1 ∧ n = -1 ∧ self' = self)
  ∨ (1 ≤ len ∧ len ≤ Z.of_nat (length argv) ∧ n = len
     ∧ ∃ xs, mapM parse_T (take (Z.to_nat len) argv) = Some xs
             ∧ self' = rl_assign self (rl_values self ++ xs)).
Proof.
  unfold required_list_parse. destruct (decide (len < 1)) as [Hlen|Hlen].
  - intros [= <- <-]. left. done.
  - destruct (span argv len) as [vs|] eqn:Hspan; [|discriminate].
    intros (vals & Hrun & ->)%with_state_Returned.
    apply push_back_each_Returned in Hrun as (xs & Hxs & -> & ->).
    assert (Z.of_nat (length vs) = len) as Hvs by (apply (span_length argv); [lia|done]).
    apply span_Some in Hspan as [Hfit ->].
    right. split_and!; [lia|done|lia|]. eauto.
Qed.

Lemma consume_each_app {S : Type} (parse : S → list string → Z → outcome S Z)
    (calls1 calls2 : list (list string * Z)) :
  ∀ self : S,
    consume_each parse self (calls1 ++ calls2)
    = consume_each parse self calls1 ≫= λ self', consume_each parse self' calls2.
Proof.
  induction calls1 as [|[argv len] calls1 IH]; intros self; simpl; [done|].
  destruct (parse self argv len) as [n self'| | |]; try done.
  destruct (decide (0 ≤ n)); [apply IH | done].
Qed.

Lemma consume_each_last {S : Type} (parse : S → list string → Z → outcome S Z)
    (calls : list (list string * Z)) (argv : list string) (len : Z) (self final : S) :
  consume_each parse self (calls ++ [(argv, len)]) = Some final →
  ∃ (before : S) (n : Z),
    consume_each parse self calls = Some before
    ∧ parse before argv len = Returned n final ∧ 0 ≤ n.
Proof.
  rewrite consume_each_app. destruct (consume_each parse self calls) as [before|]; [|done].
  simpl. destruct (parse before argv len) as [n self'| | |] eqn:Hlast; try done.
  destruct (decide (0 ≤ n)); [|done]. intros [= <-]. eauto.
Qed.

(** C1. On a window of [len >= 1] tokens each spec converts and stores
    [min(len, takes())] tokens and returns that count: a value spec stores
    the converted first token and returns 1, a list spec appends the
    converted tokens of the whole window, in order, and returns [len]. *)
Theorem parse_consumes_min_len_arity (argv : list string) (len : Z) :
  1 ≤ len ≤ INT_MAX →
  (∀ (tok : string) (x : T),
     argv !! 0%nat = Some tok → parse_T tok = Some x →
     (∀ self : optional_value T,
        optional_value_parse parse_T self argv len = Returned 1 (ov_assign self (Some x))
        ∧ optional_value_get_value (ov_assign self (Some x)) = Some x)
     ∧ (∀ self : required_value T,
          required_value_parse parse_T self argv len = Returned 1 (rv_assign self (Some x))
          ∧ required_value_get_value (rv_assign self (Some x)) = Some x)
     ∧ Z.min len optional_value_takes = 1 ∧ Z.min len required_value_takes = 1)
  ∧ (∀ xs : list T,
       len ≤ Z.of_nat (length argv) →
       mapM parse_T (take (Z.to_nat len) argv) = Some xs →
       (∀ self : optional_list T,
          optional_list_parse parse_T self argv len
          = Returned len (ol_assign self (ol_values self ++ xs))
          ∧ optional_list_get_values (ol_assign self (ol_values self ++ xs))
            = optional_list_get_values self ++ xs)
       ∧ (∀ self : required_list T,
            required_list_parse parse_T self argv len
            = Returned len (rl_assign self (rl_values self ++ xs))
            ∧ required_list_get_values (rl_assign self (rl_values self ++ xs))
              = required_list_get_values self ++ xs)
       ∧ Z.min len optional_list_takes = len ∧ Z.min len required_list_takes = len
       ∧ Z.of_nat (length xs) = len).
Proof.
  intros [Hlen Hint]. split.
  - intros tok x Htok Hx. split_and!.
    + intros self. split; [by eapply optional_value_parse_token | done].
    + intros self. split; [by eapply required_value_parse_token | done].
    + unfold optional_value_takes. lia.
    + unfold required_value_takes. lia.
  - intros xs Hfit Hxs. split_and!.
    + intros self. split; [by apply optional_list_parse_tokens | done].
    + intros self. split; [by apply required_list_parse_tokens | done].
    + unfold optional_list_takes, SIZE_MAX. unfold INT_MAX in Hint. lia.
    + unfold required_list_takes, SIZE_MAX. unfold INT_MAX in Hint. lia.
    + apply length_mapM in Hxs. rewrite <- Hxs, length_take. lia.
Qed.


(** C7. A list spec appends to what it has accumulated and never clears
    it: after two successive successful calls the stored sequence is the
    one held before, then the converted tokens of the first window, then
    those of the second; on a new spec these are the two windows' values. *)
Theorem list_parse_appends_across_calls (argv1 argv2 : list string) (len1 len2 : Z)
    (xs1 xs2 : list T) :
  1 ≤ len1 ≤ Z.of_nat (length argv1) →
  1 ≤ len2 ≤ Z.of_nat (length argv2) →
  mapM parse_T (take (Z.to_nat len1) argv1) = Some xs1 →
  mapM parse_T (take (Z.to_nat len2) argv2) = Some xs2 →
  (∀ self : optional_list T,
     ∃ final,
       consume_each (optional_list_parse parse_T) self [(argv1, len1); (argv2, len2)]
       = Some final
       ∧ optional_list_get_values final = optional_list_get_values self ++ xs1 ++ xs2
       ∧ (optional_list_get_values self = [] → optional_list_get_values final = xs1 ++ xs2))
  ∧ (∀ self : required_list T,
       ∃ final,
         consume_each (required_list_parse parse_T) self [(argv1, len1); (argv2, len2)]
         = Some final
         ∧ required_list_get_values final = required_list_get_values self ++ xs1 ++ xs2
         ∧ (required_list_get_values self = [] → required_list_get_values final = xs1 ++ xs2)).
Proof.
  intros [Hlen1 Hfit1] [Hlen2 Hfit2] Hxs1 Hxs2. split; intros self; simpl.
  - rewrite (optional_list_parse_tokens _ _ _ _ Hlen1 Hfit1 Hxs1).
    rewrite decide_True by lia.
    rewrite (optional_list_parse_tokens _ _ _ _ Hlen2 Hfit2 Hxs2).
    rewrite decide_True by lia.
    eexists. split; [done|]. simpl. rewrite <- app_assoc. split; [done|].
    unfold optional_list_get_values. by intros ->.
  - rewrite (required_list_parse_tokens _ _ _ _ Hlen1 Hfit1 Hxs1).
    rewrite decide_True by lia.
    rewrite (required_list_parse_tokens _ _ _ _ Hlen2 Hfit2 Hxs2).
    rewrite decide_True by lia.
    eexists. split; [done|]. simpl. rewrite <- app_assoc. split; [done|].
    unfold required_list_get_values. by intros ->.
Qed.

(** C8. When a [parse] returns the failure sentinel -1 the spec is left as
    it was: the stored value variant and the stored list are those from
    before the call (and the window was empty). *)
Theorem parse_failure_keeps_payload (argv : list string) (len : Z) :
  (∀ self self' : optional_value T,
     optional_value_parse parse_T self argv len = Returned (-1) self' →
     self' = self ∧ optional_value_get_value self' = optional_value_get_value self ∧ len < 1)
  ∧ (∀ self self' : required_value T,
       required_value_parse parse_T self argv len = Returned (-1) self' →
       self' = self ∧ required_value_get_value self' = required_value_get_value self ∧ len < 1)
  ∧ (∀ self self' : optional_list T,
       optional_list_parse parse_T self argv len = Returned (-1) self' →
       self' = self ∧ optional_list_get_values self' = optional_list_get_values self ∧ len < 1)
  ∧ (∀ self self' : required_list T,
       required_list_parse parse_T self argv len = Returned (-1) self' →
       self' = self ∧ required_list_get_values self' = required_list_get_values self ∧ len < 1).
Proof.
  split_and!; intros self self' Hrun.
  - apply optional_value_parse_Returned in Hrun as [(? & _ & ->)|(? & ? & _)]; [done|lia].
  - apply required_value_parse_Returned in Hrun as [(? & _ & ->)|(? & ? & _)]; [done|lia].
  - apply optional_list_parse_Returned in Hrun as [(? & _ & ->)|(? & ? & ? & _)]; [done|lia].
  - apply required_list_parse_Returned in Hrun as [(? & _ & ->)|(? & ? & ? & _)]; [done|lia].
Qed.

(** Runs of calls each on a non-empty window whose first token converts
    go through. *)
Lemma value_parse_run_succeeds (calls : list (list string * Z)) :
  Forall (λ call, 1 ≤ call.2 ∧ ∃ tok, call.1 !! 0%nat = Some tok ∧ is_Some (parse_T tok)) calls →
  (∀ self : optional_value T, is_Some (consume_each (optional_value_parse parse_T) self calls))
  ∧ (∀ self : required_value T, is_Some (consume_each (required_value_parse parse_T) self calls)).
Proof.
  induction 1 as [|[argv len] calls (Hlen & tok & Htok & x & Hx) _ [IHo IHr]]; simpl in *.
  - split; intros self; eauto.
  - split; intros self.
    + rewrite (optional_value_parse_token _ _ _ _ _ Hlen Htok Hx). apply IHo.
    + rewrite (required_value_parse_token _ _ _ _ _ Hlen Htok Hx). apply IHr.
Qed.

(** C9. A later successful [parse] of a single-value spec overwrites the
    stored value.  A run of calls, each on a non-empty window whose first
    token converts, goes through, and [get_value] then gives the value
    converted from the first token of the most recent call, whatever was
    stored before; conversely a run that went through ended on such a
    call. *)
Theorem value_parse_last_call_wins (calls : list (list string * Z))
    (argv : list string) (len : Z) :
  (∀ (tok : string) (x : T),
     Forall (λ call, 1 ≤ call.2
                     ∧ ∃ tok', call.1 !! 0%nat = Some tok' ∧ is_Some (parse_T tok')) calls →
     1 ≤ len → argv !! 0%nat = Some tok → parse_T tok = Some x →
     (∀ self : optional_value T,
        ∃ final,
          consume_each (optional_value_parse parse_T) self (calls ++ [(argv, len)]) = Some final
          ∧ optional_value_get_value final = Some x)
     ∧ (∀ self : required_value T,
          ∃ final,
            consume_each (required_value_parse parse_T) self (calls ++ [(argv, len)]) = Some final
            ∧ required_value_get_value final = Some x))
  ∧ (∀ self final : optional_value T,
       consume_each (optional_value_parse parse_T) self (calls ++ [(argv, len)]) = Some final →
       ∃ (tok : string) (x : T),
         argv !! 0%nat = Some tok ∧ parse_T tok = Some x
         ∧ optional_value_get_value final = Some x)
  ∧ (∀ self final : required_value T,
       consume_each (required_value_parse parse_T) self (calls ++ [(argv, len)]) = Some final →
       ∃ (tok : string) (x : T),
         argv !! 0%nat = Some tok ∧ parse_T tok = Some x
         ∧ required_value_get_value final = Some x).
Proof.
  split_and!.
  - intros tok x Hcalls Hlen Htok Hx.
    destruct (value_parse_run_succeeds calls Hcalls) as [Hov Hrv].
    split; intros self; rewrite consume_each_app.
    + destruct (Hov self) as [before ->]. simpl.
      rewrite (optional_value_parse_token _ _ _ _ _ Hlen Htok Hx).
      rewrite decide_True by lia. eauto.
    + destruct (Hrv self) as [before ->]. simpl.
      rewrite (required_value_parse_token _ _ _ _ _ Hlen Htok Hx).
      rewrite decide_True by lia. eauto.
  - intros self final (before & n & _ & Hlast & Hn)%consume_each_last.
    apply optional_value_parse_Returned in Hlast
      as [(_ & -> & _)|(_ & _ & tok & x & Htok & Hx & ->)]; [lia|].
    exists tok, x. done.
  - intros self final (before & n & _ & Hlast & Hn)%consume_each_last.
    apply required_value_parse_Returned in Hlast
      as [(_ & -> & _)|(_ & _ & tok & x & Htok & Hx & ->)]; [lia|].
    exists tok, x. done.
Qed.

End TemplateFacts.

(** ** The registries *)

Section RegistryFacts.
Context {ty : Type} `{!EqDecision ty} {den : ty → Type}.
Implicit Types (self : command den) (o : optional den) (a : argument den).

Lemma any_of_optional self (_short : ascii) (_long : string) :
  existsb (λ ptr : optional den, let '(s, l) := abbr ptr in
             bool_decide (s = _short) || bool_decide (l = _long)) (_optional self) = true
  ↔ ∃ o, o ∈ _optional self ∧ ((abbr o).1 = _short ∨ (abbr o).2 = _long).
Proof.
  rewrite existsb_exists. split.
  - intros (o & Hin%list_elem_of_In & Hhit). exists o. split; [done|].
    destruct (abbr o) as [s l]. simpl.
    apply orb_true_iff in Hhit as [Hs%bool_decide_eq_true|Hl%bool_decide_eq_true]; auto.
  - intros (o & Hin%list_elem_of_In & Hhit). exists o. split; [done|].
    destruct (abbr o) as [s l]. simpl in Hhit.
    apply orb_true_iff. destruct Hhit as [Hs|Hl]; [left|right]; by apply bool_decide_eq_true.
Qed.

Lemma any_of_required self (_name : string) :
  existsb (λ ptr : argument den, bool_decide (_name = name ptr)) (_required self) = true
  ↔ ∃ a, a ∈ _required self ∧ name a = _name.
Proof.
  rewrite existsb_exists. split.
  - intros (a & Hin%list_elem_of_In & Hhit%bool_decide_eq_true). eauto.
  - intros (a & Hin%list_elem_of_In & Hhit). exists a. split; [done|].
    by apply bool_decide_eq_true.
Qed.

Lemma abbr_make_unique_optional (Opt : optional_class) (_short : ascii) (_long _desc : string) :
  abbr (make_unique_optional den Opt _short _long _desc) = (_short, _long).
Proof. by destruct Opt. Qed.

Lemma name_make_unique_argument (Arg : argument_class) (_name _desc : string) :
  name (make_unique_argument den Arg _name _desc) = _name.
Proof. by destruct Arg. Qed.

Lemma dynamic_class_make_unique_optional (Opt : optional_class)
    (_short : ascii) (_long _desc : string) :
  dynamic_class_optional (make_unique_optional den Opt _short _long _desc) = Opt.
Proof. by destruct Opt. Qed.

Lemma dynamic_class_make_unique_argument (Arg : argument_class) (_name _desc : string) :
  dynamic_class_argument (make_unique_argument den Arg _name _desc) = Arg.
Proof. by destruct Arg. Qed.

(** A registration with new flags goes through: the spec is appended and
    the reference is to it. *)
Lemma add_optional_arg_new (Opt : optional_class) self (_short : ascii) (_long _desc : string) :
  (∀ o, o ∈ _optional self → (abbr o).1 ≠ _short ∧ (abbr o).2 ≠ _long) →
  add_optional_arg Opt self _short _long _desc
  = Returned (length (_optional self))
      (with_optional self (_optional self ++ [make_unique_optional den Opt _short _long _desc])).
Proof.
  intros Hnew. unfold add_optional_arg.
  destruct (existsb _ _) eqn:Hany; [|done].
  apply any_of_optional in Hany as (o & Hin & Hhit). destruct (Hnew o Hin). tauto.
Qed.

Lemma add_required_arg_new (Arg : argument_class) self (_name _desc : string) :
  (∀ a, a ∈ _required self → name a ≠ _name) →
  add_required_arg Arg self _name _desc
  = Returned () (with_required self (_required self ++ [make_unique_argument den Arg _name _desc])).
Proof.
  intros Hnew. unfold add_required_arg.
  destruct (existsb _ _) eqn:Hany; [|done].
  apply any_of_required in Hany as (a & Hin & Hhit). by destruct (Hnew a Hin).
Qed.

(** The reference handed out by [add_optional_arg] is to an object of class
    [Opt] with the flags registered, and later registrations leave it
    where it is. *)
Lemma add_optional_arg_reference (Opt : optional_class) self self' (_short : ascii)
    (_long _desc : string) (h : nat) :
  add_optional_arg Opt self _short _long _desc = Returned h self' →
  _optional self' !! h = Some (make_unique_optional den Opt _short _long _desc)
  ∧ ∀ o, _optional self' !! h = Some o → dynamic_class_optional o = Opt.
Proof.
  unfold add_optional_arg. destruct (existsb _ _); [done|]. intros [= <- <-]. simpl.
  rewrite list_lookup_middle by done. split; [done|].
  intros o [= <-]. apply dynamic_class_make_unique_optional.
Qed.

Lemma add_optional_arg_keeps (Opt : optional_class) self self' (_short : ascii)
    (_long _desc : string) (h h' : nat) o :
  _optional self !! h = Some o →
  add_optional_arg Opt self _short _long _desc = Returned h' self' →
  _optional self' !! h = Some o.
Proof.
  intros Hh. unfold add_optional_arg. destruct (existsb _ _); [done|]. intros [= <- <-].
  simpl. by apply lookup_app_l_Some.
Qed.

(** Registration keeps the invariant of the registries. *)
Lemma add_optional_arg_distinct (Opt : optional_class) self self' (_short : ascii)
    (_long _desc : string) (h : nat) :
  distinct_flags self →
  add_optional_arg Opt self _short _long _desc = Returned h self' →
  distinct_flags self'.
Proof.
  intros [Hs Hl]. unfold add_optional_arg.
  destruct (existsb _ _) eqn:Hany; [done|]. intros [= <- <-].
  assert (∀ o, o ∈ _optional self → (abbr o).1 ≠ _short ∧ (abbr o).2 ≠ _long) as Hnew.
  { intros o Hin. split; intros Heq;
      (assert (existsb (λ ptr : optional den, let '(s, l) := abbr ptr in
                 bool_decide (s = _short) || bool_decide (l = _long)) (_optional self) = true)
         as Habs by (apply any_of_optional; eauto)); congruence. }
  unfold distinct_flags. simpl. rewrite !fmap_app. simpl.
  rewrite abbr_make_unique_optional. simpl. split.
  - apply list.NoDup_app. split_and!; [done| |apply NoDup_singleton].
    intros s (o & -> & Hin)%list_elem_of_fmap Heq%list_elem_of_singleton.
    by destruct (Hnew o Hin).
  - apply list.NoDup_app. split_and!; [done| |apply NoDup_singleton].
    intros l (o & -> & Hin)%list_elem_of_fmap Heq%list_elem_of_singleton.
    by destruct (Hnew o Hin).
Qed.

Lemma add_required_arg_distinct (Arg : argument_class) self self' (_name _desc : string) :
  distinct_names self →
  add_required_arg Arg self _name _desc = Returned () self' →
  distinct_names self'.
Proof.
  intros Hn. unfold add_required_arg.
  destruct (existsb _ _) eqn:Hany; [done|]. intros [= <-].
  unfold distinct_names. simpl. rewrite fmap_app. simpl.
  rewrite name_make_unique_argument.
  apply list.NoDup_app. split_and!; [done| |apply NoDup_singleton].
  intros n (a & -> & Hin)%list_elem_of_fmap Heq%list_elem_of_singleton.
  assert (existsb (λ ptr : argument den, bool_decide (_name = name ptr)) (_required self) = true)
    as Habs by (apply any_of_required; eauto).
  congruence.
Qed.

(** C5. Registering an optional spec whose short flag or long flag is that
    of a registered optional spec, or a required spec whose name is that of
    a registered required spec, raises [std::runtime_error] there and then
    and leaves the command, with its registries, as it was. *)
Theorem duplicate_registration_throws self :
  (∀ (Opt : optional_class) (_short : ascii) (_long _desc : string),
     (∃ o, o ∈ _optional self ∧ ((abbr o).1 = _short ∨ (abbr o).2 = _long)) →
     ∃ msg, add_optional_arg Opt self _short _long _desc = Thrown (runtime_error msg) self
            ∧ state_after (add_optional_arg Opt self _short _long _desc) = Some self)
  ∧ (∀ (Arg : argument_class) (_name _desc : string),
       (∃ a, a ∈ _required self ∧ name a = _name) →
       ∃ msg, add_required_arg Arg self _name _desc = Thrown (runtime_error msg) self
              ∧ state_after (add_required_arg Arg self _name _desc) = Some self).
Proof.
  split.
  - intros Opt _short _long _desc Hdup%any_of_optional.
    unfold add_optional_arg. rewrite Hdup. eauto.
  - intros Arg _name _desc Hdup%any_of_required.
    unfold add_required_arg. rewrite Hdup. eauto.
Qed.

Lemma filter_nil_iff {A : Type} (P : A → Prop) `{!∀ x, Decision (P x)} (l : list A) :
  filter P l = [] ↔ ∀ x, x ∈ l → ¬ P x.
Proof.
  split.
  - intros Hnil x Hin HP.
    assert (x ∈ filter P l) as Hx by (apply list_elem_of_filter; done).
    rewrite Hnil in Hx. by apply not_elem_of_nil in Hx.
  - intros Hnone. destruct (filter P l) as [|x l'] eqn:Hf; [done|].
    assert (x ∈ filter P l) as [HP Hin]%list_elem_of_filter by (rewrite Hf; left).
    by destruct (Hnone x Hin).
Qed.

(** [get_optional] and [get_required] call [abort()] exactly on the names
    that are not registered. *)
Lemma get_optional_Aborted (T : optional_class) self (_long : string) :
  get_optional T self _long = Aborted ↔ ∀ o, o ∈ _optional self → (abbr o).2 ≠ _long.
Proof.
  unfold get_optional.
  pose proof (filter_nil_iff (λ ptr : optional den, (abbr ptr).2 = _long) (_optional self))
    as Hnil.
  destruct (filter _ _) as [|ptr v].
  - split; [intros _; by apply Hnil | done].
  - split; [destruct (decide _); done | intros Hnone; by apply Hnil in Hnone].
Qed.

Lemma get_required_Aborted (T : argument_class) self (_name : string) :
  get_required T self _name = Aborted ↔ ∀ a, a ∈ _required self → name a ≠ _name.
Proof.
  unfold get_required.
  pose proof (filter_nil_iff (λ ptr : argument den, name ptr = _name) (_required self))
    as Hnil.
  destruct (filter _ _) as [|ptr v].
  - split; [intros _; by apply Hnil | done].
  - split; [destruct (decide _); done | intros Hnone; by apply Hnil in Hnone].
Qed.

(** C10. The name-keyed retrieval helpers reach [abort()] when the key is
    unknown: [get_optional] on a long name that no registered optional spec
    has and [get_required] on a name that no registered required spec has
    do not return. *)
Theorem retrieval_of_unknown_name_aborts self :
  (∀ (T : optional_class) (_long : string),
     (∀ o, o ∈ _optional self → (abbr o).2 ≠ _long) →
     get_optional T self _long = Aborted
     ∧ return_value (get_optional T self _long) = None)
  ∧ (∀ (T : argument_class) (_name : string),
       (∀ a, a ∈ _required self → name a ≠ _name) →
       get_required T self _name = Aborted
       ∧ return_value (get_required T self _name) = None).
Proof.
  split.
  - intros T _long Hnone%(get_optional_Aborted T). by rewrite Hnone.
  - intros T _name Hnone%(get_required_Aborted T). by rewrite Hnone.
Qed.

End RegistryFacts.

(** ** The parsing engine *)

Section EngineFacts.
Context {ty : Type} {den : ty → Type} (conv : ∀ t : ty, string → option (den t)).
Implicit Types (self : command den) (o : optional den) (a : argument den).

Lemma with_optional_id self : with_optional self (_optional self) = self.
Proof. by destruct self. Qed.

Lemma set_flag_set_flag self (i : nat) (f g : optional_flag) :
  set_flag (set_flag self i f) i g = set_flag self i g.
Proof. unfold set_flag, with_optional. simpl. by rewrite list_insert_insert_eq. Qed.

Lemma set_flag_id self (i : nat) (f : optional_flag) :
  _optional self !! i = Some (ptr_optional_flag f) → set_flag self i f = self.
Proof. intros Hi. unfold set_flag. rewrite list_insert_id by done. apply with_optional_id. Qed.

Lemma set_flag_lookup self (i : nat) (f g : optional_flag) :
  _optional self !! i = Some (ptr_optional_flag f) →
  _optional (set_flag self i g) !! i = Some (ptr_optional_flag g).
Proof.
  intros Hi. simpl. apply list_lookup_insert_eq. by eapply lookup_lt_Some.
Qed.

Lemma list_find_insert_same {A : Type} (P : A → Prop) `{!∀ x, Decision (P x)}
    (l : list A) (i : nat) (x y : A) :
  list_find P l = Some (i, x) → P y → list_find P (<[i:=y]> l) = Some (i, y).
Proof.
  intros (Hi & _ & Hbefore)%list_find_Some Hy. apply list_find_Some. split_and!.
  - apply list_lookup_insert_eq. by eapply lookup_lt_Some.
  - done.
  - intros j z Hj Hlt. rewrite list_lookup_insert_ne in Hj by lia. by eapply Hbefore.
Qed.

(** Under the invariant of the registries a short character names the spec
    registered with it. *)
Lemma find_short_distinct self (i : nat) o :
  distinct_flags self → _optional self !! i = Some o →
  find_short self (abbr o).1 = Some (i, o).
Proof.
  intros [Hs _] Hi. apply list_find_Some. split_and!; [done..|].
  intros j y Hj Hlt Heq.
  assert (j = i); [|lia].
  eapply NoDup_lookup; [exact Hs| |]; rewrite list_lookup_fmap.
  - rewrite Hj. simpl. by rewrite Heq.
  - by rewrite Hi.
Qed.

Lemma find_short_set_flag self (c : ascii) (i : nat) (f g : optional_flag) :
  find_short self c = Some (i, ptr_optional_flag f) → of_short g = c →
  find_short (set_flag self i g) c = Some (i, ptr_optional_flag g).
Proof.
  intros Hfind Hg. unfold find_short, set_flag. simpl.
  by eapply list_find_insert_same.
Qed.

Lemma of_short_iter_occurred (m : nat) (f : optional_flag) :
  of_short (Nat.iter m occurred f) = of_short f.
Proof. induction m as [|m IH]; simpl; done. Qed.

(** Matching a flag spec consumes nothing and makes it occur once more. *)
Lemma deliver_optional_flag self (i : nat) (f : optional_flag) (argv : list string) :
  _optional self !! i = Some (ptr_optional_flag f) →
  deliver_optional conv self i argv = Returned 0 (set_flag self i (occurred f)).
Proof. intros Hi. unfold deliver_optional. by rewrite Hi. Qed.

Lemma deliver_group_replicate (i : nat) (argv : list string) (m : nat) :
  ∀ self (f : optional_flag),
    _optional self !! i = Some (ptr_optional_flag f) →
    deliver_group conv self (replicate m i) argv
    = Returned 0 (set_flag self i (Nat.iter m occurred f)).
Proof.
  induction m as [|m IH]; intros self f Hi; simpl.
  - by rewrite set_flag_id.
  - rewrite (deliver_optional_flag _ _ _ _ Hi).
    rewrite (IH _ (occurred f)) by (by eapply set_flag_lookup).
    rewrite set_flag_set_flag. do 2 f_equal.
    clear. induction m as [|m IH]; simpl; [done|]. by rewrite IH.
Qed.

Lemma mapM_find_short_replicate self (c : ascii) (hit : nat * optional den) (m : nat) :
  find_short self c = Some hit →
  mapM (find_short self) (replicate m c) = Some (replicate m hit).
Proof.
  intros Hc. induction m as [|m IH]; simpl; [done|]. by rewrite Hc, IH.
Qed.

Lemma parse_window_nil (fuel : nat) self (satisfied : nat) (n : Z) :
  parse_window conv (S fuel) self satisfied [] n
  = Some (Returned (match _required self !! satisfied with
                    | Some a => Failed (UnsatisfiedRequired (name a))
                    | None => Consumed n
                    end) self).
Proof. simpl. by destruct (_required self !! satisfied). Qed.

(** A token that is a group of [S m] copies of the short character of a
    flag spec is that flag matched [S m] times; the window moves on by the
    one token. *)
Lemma parse_window_flag_group (fuel : nat) self (satisfied : nat) (tok : string)
    (rest : list string) (n : Z) (c : ascii) (m i : nat) (f : optional_flag) :
  classify tok = short_group (replicate (S m) c) →
  find_short self c = Some (i, ptr_optional_flag f) →
  parse_window conv (S fuel) self satisfied (tok :: rest) n
  = parse_window conv fuel (set_flag self i (Nat.iter (S m) occurred f)) satisfied rest (n + 1).
Proof.
  intros Htok Hc.
  assert (_optional self !! i = Some (ptr_optional_flag f)) as Hi
    by (by apply list_find_Some in Hc as (? & _)).
  cbn [parse_window].
  rewrite Htok, (mapM_find_short_replicate _ _ _ _ Hc).
  assert (forallb (λ hit : nat * optional den, bool_decide (optional_takes hit.2 = 0))
            (replicate (S m) (i, ptr_optional_flag f)) = true) as ->.
  { apply forallb_forall. intros hit Hin%list_elem_of_In.
    apply elem_of_replicate in Hin as [-> _]. done. }
  rewrite fmap_replicate. simpl fst.
  rewrite (deliver_group_replicate _ _ _ _ _ Hi). simpl. reflexivity.
Qed.

Lemma parse_window_long_flag (fuel : nat) self (satisfied : nat) (tok stripped : string)
    (rest : list string) (n : Z) (i : nat) (f : optional_flag) :
  classify tok = long_flag stripped →
  find_long self stripped = Some (i, ptr_optional_flag f) →
  parse_window conv (S fuel) self satisfied (tok :: rest) n
  = parse_window conv fuel (set_flag self i (occurred f)) satisfied rest (n + 1).
Proof.
  intros Htok Hfind.
  assert (_optional self !! i = Some (ptr_optional_flag f)) as Hi
    by (by apply list_find_Some in Hfind as (? & _)).
  cbn [parse_window]. rewrite Htok, Hfind, (deliver_optional_flag _ _ _ _ Hi).
  simpl. by rewrite Z.add_0_r.
Qed.

(** The window offered to a spec holds no token that classifies as a flag
    and ends at the first one that does, or at the end of the vector. *)
Lemma before_next_flag_stops (argv : list string) :
  (before_next_flag argv ≤ length argv)%nat
  ∧ Forall (λ tok, classifies_as_flag tok = false) (take (before_next_flag argv) argv)
  ∧ (∀ tok, argv !! before_next_flag argv = Some tok → classifies_as_flag tok = true).
Proof.
  induction argv as [|tok rest (IHle & IHall & IHnext)]; simpl.
  - split_and!; [lia|constructor|done].
  - destruct (classifies_as_flag tok) eqn:Htok; simpl.
    + split_and!; [lia|constructor|by intros ? [= <-]].
    + split_and!; [lia|by constructor|done].
Qed.

Lemma before_next_flag_candidate (tok : string) (rest : list string) :
  classify tok = candidate →
  before_next_flag (tok :: rest) = S (before_next_flag rest).
Proof. intros Htok. simpl. unfold classifies_as_flag. by rewrite Htok. Qed.

(** A required list in turn takes the tokens up to the next flag. *)
Lemma parse_window_required_list (fuel : nat) self (satisfied : nat) (tok : string)
    (rest : list string) (n : Z) (t : ty) (l : required_list (den t)) (xs : list (den t)) :
  classify tok = candidate →
  _required self !! satisfied = Some (ptr_required_list t l) →
  mapM (conv t) (take (before_next_flag (tok :: rest)) (tok :: rest)) = Some xs →
  parse_window conv (S fuel) self satisfied (tok :: rest) n
  = parse_window conv fuel
      (with_required self
         (<[satisfied:=ptr_required_list t (rl_assign l (rl_values l ++ xs))]> (_required self)))
      (S satisfied)
      (drop (before_next_flag (tok :: rest)) (tok :: rest))
      (n + Z.of_nat (before_next_flag (tok :: rest))).
Proof.
  intros Htok Hreq Hxs.
  pose proof (before_next_flag_stops (tok :: rest)) as (Hle & _ & _).
  pose proof (before_next_flag_candidate tok rest Htok) as Hpos.
  cbn [parse_window]. rewrite Htok, Hreq. unfold deliver_required. rewrite Hreq.
  cbn [argument_parse].
  rewrite (required_list_parse_tokens _ _ _ _ xs); [|lia|lia|by rewrite Nat2Z.id].
  cbn [with_state after_consume]. rewrite decide_False by lia.
  by rewrite Nat2Z.id.
Qed.

(** *** The engine returns: the fuel of [command_parse] is enough *)

Lemma after_consume_is_Some (tok : string) (o : outcome (command den) Z)
    (continue : command den → Z → option (outcome (command den) parse_result)) :
  (∀ self' n, o = Returned n self' → 0 ≤ n → is_Some (continue self' n)) →
  is_Some (after_consume tok o continue).
Proof.
  intros Hk. destruct o as [n self'|[]| |]; simpl; eauto.
  destruct (decide (n < 0)); [eauto|]. apply Hk; [done|lia].
Qed.

Lemma argument_parse_count a a' (argv : list string) (len n : Z) :
  argument_parse conv a argv len = Returned n a' → 1 ≤ len → 1 ≤ n.
Proof.
  destruct a as [t v|t l]; simpl; intros (s & Hrun & _)%with_state_Returned Hlen.
  - apply required_value_parse_Returned in Hrun as [(? & _)|(_ & -> & _)]; lia.
  - apply required_list_parse_Returned in Hrun as [(? & _)|(_ & _ & -> & _)]; lia.
Qed.

Lemma deliver_required_count self self' (i : nat) (tok : string) (rest : list string) (n : Z) :
  classify tok = candidate →
  deliver_required conv self i (tok :: rest) = Returned n self' → 1 ≤ n.
Proof.
  intros Htok. unfold deliver_required.
  destruct (_required self !! i) as [a|]; [|done].
  intros (a' & Hrun & _)%with_state_Returned.
  apply argument_parse_count in Hrun; [done|].
  rewrite (before_next_flag_candidate _ _ Htok). lia.
Qed.

Lemma parse_window_enough (fuel : nat) :
  ∀ self (satisfied : nat) (argv : list string) (n : Z),
    (length argv < fuel)%nat → is_Some (parse_window conv fuel self satisfied argv n).
Proof.
  induction fuel as [|fuel IH]; intros self satisfied argv n Hfuel; [lia|].
  destruct argv as [|tok rest]; [rewrite parse_window_nil; eauto|].
  simpl in Hfuel. cbn [parse_window].
  destruct (classify tok) as [stripped|chars|] eqn:Htok.
  - destruct (find_long self stripped) as [[i o]|]; [|eauto].
    apply after_consume_is_Some. intros self' k _ Hk. apply IH.
    rewrite length_drop. lia.
  - destruct (mapM (find_short self) chars) as [hits|]; [|eauto].
    destruct (forallb _ hits).
    + apply after_consume_is_Some. intros self' k _ Hk. apply IH. lia.
    + destruct hits as [|[i o] [|hit hits]]; eauto.
      apply after_consume_is_Some. intros self' k _ Hk. apply IH.
      rewrite length_drop. lia.
  - destruct (_required self !! satisfied) as [a|].
    + apply after_consume_is_Some. intros self' k Hrun Hk.
      apply deliver_required_count in Hrun; [|done]. apply IH.
      rewrite length_drop. simpl. lia.
    + destruct (find_command self tok) as [[i child]|]; [|eauto].
      apply fmap_is_Some, IH. lia.
Qed.

Lemma command_parse_returns self (argv : list string) :
  is_Some (command_parse conv self argv).
Proof. apply parse_window_enough. lia. Qed.

(** C2. With a flag registered as [-v], parsing [-v -v -v] and parsing
    [-vvv] both leave that flag spec with occurrence count 3 and set. *)
Theorem short_flag_repeated_or_grouped self (i : nat) (f : optional_flag) (argv : list string) :
  distinct_flags self →
  _optional self !! i = Some (ptr_optional_flag f) →
  of_short f = "v"%char → cnt f = 0 →
  argv = ["-v"; "-v"; "-v"] ∨ argv = ["-vvv"] →
  ∃ (r : parse_result) self' (f' : optional_flag),
    command_parse conv self argv = Some (Returned r self')
    ∧ _optional self' !! i = Some (ptr_optional_flag f')
    ∧ cnt f' = 3 ∧ is_set f' = true
    ∧ (_required self = [] → r = Consumed (Z.of_nat (length argv))).
Proof.
  intros Hinv Hi Hv Hcnt Hargv.
  pose proof (find_short_distinct _ _ _ Hinv Hi) as Hfind. simpl in Hfind. rewrite Hv in Hfind.
  set (f3 := occurred (occurred (occurred f))).
  assert (cnt f3 = 3 ∧ is_set f3 = true) as [Hcnt3 Hset3].
  { unfold f3, cnt, is_set, occurred in *. simpl. rewrite Hcnt. done. }
  assert (command_parse conv self argv
          = parse_window conv 1 (set_flag self i f3) 0 [] (Z.of_nat (length argv))) as ->.
  { unfold command_parse. destruct Hargv as [-> | ->]; cbn [length].
    - rewrite (parse_window_flag_group _ _ _ _ _ _ "v" 0 i f) by done.
      rewrite (parse_window_flag_group _ _ _ _ _ _ "v" 0 i (occurred f))
        by (done || by eapply find_short_set_flag).
      rewrite set_flag_set_flag.
      rewrite (parse_window_flag_group _ _ _ _ _ _ "v" 0 i (occurred (occurred f)))
        by (done || by eapply find_short_set_flag).
      by rewrite set_flag_set_flag.
    - by rewrite (parse_window_flag_group _ _ _ _ _ _ "v" 2 i f). }
  rewrite parse_window_nil. eexists _, _, f3. split; [done|].
  split; [by eapply set_flag_lookup|]. split_and!; [done..|].
  simpl. by intros ->.
Qed.

(** *** The engine never leaves the window and keeps satisfied slots *)

Lemma returns_or_conversion_error_with_state {S S' A : Type} (f : S → S') (o : outcome S A) :
  returns_or_conversion_error o → returns_or_conversion_error (with_state f o).
Proof. by destruct o as [| [] | |]. Qed.

Lemma push_back_each_defined (t : ty) (vs : list string) :
  ∀ (_values : list (den t)) (n : Z),
    returns_or_conversion_error (push_back_each (conv t) vs _values n).
Proof.
  induction vs as [|v vs IH]; intros vals n; simpl; [done|].
  destruct (conv t v); [apply IH | done].
Qed.

Lemma before_next_flag_positive (argv : list string) :
  ¬ Z.of_nat (before_next_flag argv) < 1 → ∃ tok, argv !! 0%nat = Some tok.
Proof. destruct argv as [|tok rest]; simpl; [lia | eauto]. Qed.

Lemma span_before_next_flag (argv : list string) :
  span argv (Z.of_nat (before_next_flag argv))
  = Some (take (before_next_flag argv) argv).
Proof.
  pose proof (before_next_flag_stops argv) as (Hle & _).
  unfold span. rewrite decide_True by lia. by rewrite Nat2Z.id.
Qed.

Lemma optional_parse_defined o (argv : list string) :
  returns_or_conversion_error (optional_parse conv o argv (Z.of_nat (before_next_flag argv))).
Proof.
  destruct o as [f|t v|t l]; simpl; [done| |];
    apply returns_or_conversion_error_with_state.
  - unfold optional_value_parse. destruct (decide _) as [|Hpos]; [done|].
    destruct (before_next_flag_positive _ Hpos) as [tok ->]. by destruct (conv t tok).
  - unfold optional_list_parse. destruct (decide _); [done|].
    rewrite span_before_next_flag.
    apply returns_or_conversion_error_with_state, push_back_each_defined.
Qed.

Lemma argument_parse_defined a (argv : list string) :
  returns_or_conversion_error (argument_parse conv a argv (Z.of_nat (before_next_flag argv))).
Proof.
  destruct a as [t v|t l]; simpl; apply returns_or_conversion_error_with_state.
  - unfold required_value_parse. destruct (decide _) as [|Hpos]; [done|].
    destruct (before_next_flag_positive _ Hpos) as [tok ->]. by destruct (conv t tok).
  - unfold required_list_parse. destruct (decide _); [done|].
    rewrite span_before_next_flag.
    apply returns_or_conversion_error_with_state, push_back_each_defined.
Qed.

Lemma deliver_optional_defined self (i : nat) (argv : list string) :
  (i < length (_optional self))%nat →
  returns_or_conversion_error (deliver_optional conv self i argv)
  ∧ ∀ self', state_after (deliver_optional conv self i argv) = Some self' →
             _required self' = _required self
             ∧ length (_optional self') = length (_optional self).
Proof.
  intros [o Hi]%lookup_lt_is_Some. unfold deliver_optional. rewrite Hi. split.
  - apply returns_or_conversion_error_with_state, optional_parse_defined.
  - intros self' (o' & _ & ->)%state_after_with_state. simpl.
    by rewrite length_insert.
Qed.

Lemma deliver_required_defined self (i : nat) a (argv : list string) :
  _required self !! i = Some a →
  returns_or_conversion_error (deliver_required conv self i argv)
  ∧ ∀ self', state_after (deliver_required conv self i argv) = Some self' →
             ∀ j, j ≠ i → _required self' !! j = _required self !! j.
Proof.
  intros Hi. unfold deliver_required. rewrite Hi. split.
  - apply returns_or_conversion_error_with_state, argument_parse_defined.
  - intros self' (a' & _ & ->)%state_after_with_state j Hj. simpl.
    by apply list_lookup_insert_ne.
Qed.

Lemma deliver_group_defined (hits : list nat) (argv : list string) :
  ∀ self,
    Forall (λ i, (i < length (_optional self))%nat) hits →
    returns_or_conversion_error (deliver_group conv self hits argv)
    ∧ ∀ self', state_after (deliver_group conv self hits argv) = Some self' →
               _required self' = _required self.
Proof.
  induction hits as [|i hits IH]; intros self Hhits; simpl.
  - split; [done|]. by intros self' [= <-].
  - apply Forall_cons_1 in Hhits as [Hi Hhits].
    destruct (deliver_optional_defined self i argv Hi) as [Hok Hframe].
    destruct (deliver_optional conv self i argv) as [n self1|[] self1| |] eqn:Hrun; try done.
    + destruct (Hframe self1 eq_refl) as [Hreq Hlen].
      destruct (IH self1) as [Hok' Hframe']; [by rewrite Hlen|].
      split; [done|]. intros self' Hst. by rewrite (Hframe' self' Hst).
    + split; [done|]. intros self' [= <-]. by destruct (Hframe self1 eq_refl).
Qed.

Lemma after_consume_Some (tok : string) (o : outcome (command den) Z)
    (continue : command den → Z → option (outcome (command den) parse_result))
    (res : outcome (command den) parse_result) :
  returns_or_conversion_error o →
  after_consume tok o continue = Some res →
  (∃ e self', state_after o = Some self' ∧ res = Returned (Failed e) self')
  ∨ (∃ n self', o = Returned n self' ∧ 0 ≤ n ∧ continue self' n = Some res).
Proof.
  destruct o as [n self'|[] self'| |]; simpl; try done.
  - intros _. destruct (decide (n < 0)).
    + intros [= <-]. left. eauto.
    + intros Hk. right. exists n, self'. split_and!; [done|lia|done].
  - intros _ [= <-]. left. eauto.
Qed.

(** Every invocation returns, and the slots that were satisfied keep the
    specs they hold: a later token never reaches an earlier positional. *)
Lemma parse_window_keeps_satisfied (fuel : nat) :
  ∀ self (satisfied : nat) (argv : list string) (n : Z)
    (res : outcome (command den) parse_result),
    parse_window conv fuel self satisfied argv n = Some res →
    ∃ r self', res = Returned r self'
               ∧ ∀ j, (j < satisfied)%nat → _required self' !! j = _required self !! j.
Proof.
  induction fuel as [|fuel IH]; intros self satisfied argv n res; [done|].
  destruct argv as [|tok rest].
  { rewrite parse_window_nil. intros [= <-]. eauto. }
  cbn [parse_window]. destruct (classify tok) as [stripped|chars|] eqn:Htok.
  - destruct (find_long self stripped) as [[i o]|] eqn:Hfind; [|intros [= <-]; eauto].
    apply list_find_Some in Hfind as (Hi%lookup_lt_Some & _).
    destruct (deliver_optional_defined self i rest Hi) as [Hok Hframe].
    intros [(e & self' & Hst & ->)|(k & self' & Hrun & _ & Hgo)]%after_consume_Some; [| |done].
    + destruct (Hframe self' Hst) as [Hreq _]. eexists _, _. split; [done|]. by rewrite Hreq.
    + destruct (Hframe self') as [Hreq _]; [by rewrite Hrun|].
      apply IH in Hgo as (r & self'' & -> & Hkeep). eexists _, _. split; [done|].
      intros j Hj. by rewrite (Hkeep j Hj), Hreq.
  - destruct (mapM (find_short self) chars) as [hits|] eqn:Hhits; [|intros [= <-]; eauto].
    assert (Forall (λ i, (i < length (_optional self))%nat) hits.*1) as Hvalid.
    { apply mapM_Some_1 in Hhits. clear -Hhits.
      induction Hhits as [|c [i o] chars hits Hc _ IH]; simpl; constructor; [|done].
      by apply list_find_Some in Hc as (Hi%lookup_lt_Some & _). }
    destruct (forallb _ hits).
    + destruct (deliver_group_defined hits.*1 rest self Hvalid) as [Hok Hframe].
      intros [(e & self' & Hst & ->)|(k & self' & Hrun & _ & Hgo)]%after_consume_Some;
        [| |done].
      * eexists _, _. split; [done|]. by rewrite (Hframe self' Hst).
      * assert (_required self' = _required self) as Hreq by (apply Hframe; by rewrite Hrun).
        apply IH in Hgo as (r & self'' & -> & Hkeep). eexists _, _. split; [done|].
        intros j Hj. by rewrite (Hkeep j Hj), Hreq.
    + destruct hits as [|[i o] [|hit hits]]; try (intros [= <-]; eauto).
      apply Forall_cons_1 in Hvalid as [Hi _]. simpl in Hi.
      destruct (deliver_optional_defined self i rest Hi) as [Hok Hframe].
      intros [(e & self' & Hst & ->)|(k & self' & Hrun & _ & Hgo)]%after_consume_Some;
        [| |done].
      * destruct (Hframe self' Hst) as [Hreq _]. eexists _, _. split; [done|]. by rewrite Hreq.
      * destruct (Hframe self') as [Hreq _]; [by rewrite Hrun|].
        apply IH in Hgo as (r & self'' & -> & Hkeep). eexists _, _. split; [done|].
        intros j Hj. by rewrite (Hkeep j Hj), Hreq.
  - destruct (_required self !! satisfied) as [a|] eqn:Hslot.
    + destruct (deliver_required_defined self satisfied a (tok :: rest) Hslot) as [Hok Hframe].
      intros [(e & self' & Hst & ->)|(k & self' & Hrun & _ & Hgo)]%after_consume_Some;
        [| |done].
      * eexists _, _. split; [done|]. intros j Hj. apply (Hframe self' Hst). lia.
      * apply IH in Hgo as (r & self'' & -> & Hkeep). eexists _, _. split; [done|].
        intros j Hj. rewrite (Hkeep j) by lia. apply Hframe; [by rewrite Hrun|lia].
    + destruct (find_command self tok) as [[i child]|]; [|intros [= <-]; eauto].
      destruct (parse_window conv fuel child 0 rest 0) as [res'|] eqn:Hchild; [|done].
      apply IH in Hchild as (r & child' & -> & _). intros [= <-]. simpl. eauto.
Qed.

Lemma before_next_flag_run (pre rest : list string) :
  Forall (λ tok, classifies_as_flag tok = false) pre →
  (∀ nxt, rest !! 0%nat = Some nxt → classifies_as_flag nxt = true) →
  before_next_flag (pre ++ rest) = length pre.
Proof.
  intros Hpre Hnxt. induction Hpre as [|tok pre Htok _ IH]; simpl.
  - destruct rest as [|nxt rest]; [done|]. simpl. by rewrite (Hnxt nxt eq_refl).
  - by rewrite Htok, IH.
Qed.

(** C4. With a required list in the first positional slot the engine hands
    it the tokens in front of the next token that classifies as a flag,
    long or short, and no others: it goes on at that token, and whatever
    the rest of the window holds, the list ends up with what it held
    followed by the values of the tokens in front.  With a flag registered
    as [--flag], parsing [a b --flag] so gives a new list the values of [a]
    and [b] and matches [--flag] as the flag. *)
Theorem required_list_stops_before_flag self (t : ty) (l : required_list (den t))
    (reqs : list (argument den)) :
  _required self = ptr_required_list t l :: reqs →
  (∀ (pre rest : list string) (xs : list (den t)),
     pre ≠ [] →
     Forall (λ tok, classifies_as_flag tok = false) pre →
     (∀ nxt, rest !! 0%nat = Some nxt → classifies_as_flag nxt = true) →
     mapM (conv t) pre = Some xs →
     command_parse conv self (pre ++ rest)
     = parse_window conv (length (pre ++ rest))
         (with_required self
            (<[0%nat:=ptr_required_list t (rl_assign l (rl_values l ++ xs))]> (_required self)))
         1%nat rest (Z.of_nat (length pre))
     ∧ ∃ (r : parse_result) self' (l' : required_list (den t)),
         command_parse conv self (pre ++ rest) = Some (Returned r self')
         ∧ _required self' !! 0%nat = Some (ptr_required_list t l')
         ∧ required_list_get_values l' = required_list_get_values l ++ xs)
  ∧ (∀ (i : nat) (f : optional_flag) (a b : den t),
       rl_values l = [] →
       find_long self "flag" = Some (i, ptr_optional_flag f) →
       conv t "a" = Some a → conv t "b" = Some b →
       ∃ (r : parse_result) self' (l' : required_list (den t)),
         command_parse conv self ["a"; "b"; "--flag"] = Some (Returned r self')
         ∧ _required self' !! 0%nat = Some (ptr_required_list t l')
         ∧ required_list_get_values l' = [a; b]
         ∧ _optional self' !! i = Some (ptr_optional_flag (occurred f))
         ∧ (reqs = [] → r = Consumed 3)).
Proof.
  intros Hreq. split.
  - intros pre rest xs Hne Hpre Hnxt Hxs.
    destruct pre as [|tok pre']; [done|].
    assert (classify tok = candidate) as Htok.
    { apply Forall_cons_1 in Hpre as [Htok _]. unfold classifies_as_flag in Htok.
      by destruct (classify tok). }
    pose proof (before_next_flag_run _ _ Hpre Hnxt) as Hrun.
    assert (command_parse conv self ((tok :: pre') ++ rest)
            = parse_window conv (length ((tok :: pre') ++ rest))
                (with_required self
                   (<[0%nat:=ptr_required_list t (rl_assign l (rl_values l ++ xs))]>
                      (_required self)))
                1%nat rest (Z.of_nat (length (tok :: pre')))) as Hstep.
    { unfold command_parse. change ((tok :: pre') ++ rest) with (tok :: (pre' ++ rest)) in *.
      rewrite (parse_window_required_list _ _ _ _ _ _ t l xs);
        [|done|by rewrite Hreq|].
      - rewrite Hrun. change (tok :: pre' ++ rest) with ((tok :: pre') ++ rest).
        by rewrite drop_app_length.
      - rewrite Hrun. change (tok :: pre' ++ rest) with ((tok :: pre') ++ rest).
        by rewrite take_app_length. }
    split; [done|]. rewrite Hstep.
    destruct (parse_window_enough (length ((tok :: pre') ++ rest))
                (with_required self
                   (<[0%nat:=ptr_required_list t (rl_assign l (rl_values l ++ xs))]>
                      (_required self)))
                1 rest (Z.of_nat (length (tok :: pre')))) as [res Hres].
    { rewrite length_app. simpl. lia. }
    rewrite Hres. apply parse_window_keeps_satisfied in Hres as (r & self' & -> & Hkeep).
    exists r, self', (rl_assign l (rl_values l ++ xs)). split; [done|].
    rewrite (Hkeep 0%nat) by lia. simpl. rewrite Hreq. done.
  - intros i f a b Hnil Hfind Ha Hb.
    assert (_optional self !! i = Some (ptr_optional_flag f)) as Hi
      by (by apply list_find_Some in Hfind as (? & _)).
    unfold command_parse. cbn [length].
    rewrite (parse_window_required_list _ _ _ _ _ _ t l [a; b]);
      [|done|by rewrite Hreq|by simpl; rewrite Ha, Hb].
    change (drop (before_next_flag ["a"; "b"; "--flag"]) ["a"; "b"; "--flag"]) with ["--flag"].
    rewrite (parse_window_long_flag _ _ _ _ "flag" _ _ i f); [|done..].
    rewrite parse_window_nil. eexists _, _, _. split; [done|]. simpl.
    rewrite Hreq, Hnil. simpl. split_and!; [done|done| |].
    + apply list_lookup_insert_eq. by eapply lookup_lt_Some.
    + by intros ->.
Qed.

End EngineFacts.

(** ** The registration methods and their references *)

(** The example commands are what the registration methods build. *)
Lemma verbose_root_registered :
  add_opt_flag (new_command "root" "the root") "v" "verbose" "more output" = Returned 0%nat verbose_root.
Proof. reflexivity. Qed.

Lemma files_root_registered :
  ∃ c, add_req_list builtin_string (new_command "root" "the root") "files" "inputs" = Returned () c
       ∧ add_opt_flag c "f" "flag" "a flag" = Returned 0%nat files_root.
Proof. eexists. split; reflexivity. Qed.

(** C6. [add_opt_value<int>] hands out the reference to the
    [optional_value<int>] it registered, whereas [add_req_value<int>] and
    [add_req_list<std::string>] register the spec and hand out nothing:
    [add_required_arg] has no value to return. *)
Theorem add_required_arg_returns_no_reference :
  (∃ c, add_opt_value builtin_int (new_command "root" "the root") "n" "num" "a number" = Returned 0%nat c
        ∧ _optional c !! 0%nat
          = Some (ptr_optional_value builtin_int (mk_optional_value "n" "num" "a number" None)))
  ∧ add_req_value builtin_int (new_command "root" "the root") "count" "how many" = Returned () count_root
  ∧ (∃ c, add_req_list builtin_string (new_command "root" "the root") "files" "inputs" = Returned () c
          ∧ _required c
            = [ptr_required_list builtin_string (mk_required_list "files" "inputs" [])]).
Proof.
  split_and!.
  - eexists. split; reflexivity.
  - reflexivity.
  - eexists. split; reflexivity.
Qed.

(** ** The properties at work on concrete inputs *)

Lemma parse_consumes_min_len_arity_witness :
  optional_value_parse parse_int (mk_optional_value "n" "num" "a number" None) ["7"; "8"; "x"] 2
  = Returned 1 (mk_optional_value "n" "num" "a number" (Some 7))
  ∧ required_list_parse parse_int (mk_required_list "nums" "numbers" [5]) ["7"; "8"; "x"] 2
    = Returned 2 (mk_required_list "nums" "numbers" [5; 7; 8]).
Proof.
  destruct (parse_consumes_min_len_arity parse_int ["7"; "8"; "x"] 2) as [Hvalue Hlist].
  - unfold INT_MAX. lia.
  - split.
    + destruct (Hvalue "7" 7 eq_refl eq_refl) as (Hov & _).
      exact (proj1 (Hov (mk_optional_value "n" "num" "a number" None))).
    + destruct (Hlist [7; 8]) as (_ & Hrl & _); [simpl; lia|reflexivity|].
      exact (proj1 (Hrl (mk_required_list "nums" "numbers" [5]))).
Defined.



Lemma list_parse_appends_across_calls_witness :
  ∃ final,
    consume_each (required_list_parse parse_string) (mk_required_list "files" "inputs" [])
      [(["a"; "b"; "--flag"], 2); (["c"], 1)] = Some final
    ∧ required_list_get_values final = ["a"; "b"; "c"].
Proof.
  destruct (list_parse_appends_across_calls parse_string
              ["a"; "b"; "--flag"] ["c"] 2 1 ["a"; "b"] ["c"]) as [_ Hrl].
  - simpl. lia.
  - simpl. lia.
  - reflexivity.
  - reflexivity.
  - destruct (Hrl (mk_required_list "files" "inputs" [])) as (final & Hrun & Hvalues & _).
    exists final. split; [exact Hrun | exact Hvalues].
Defined.

Lemma parse_failure_keeps_payload_witness :
  optional_list_parse parse_int (mk_optional_list "n" "nums" "numbers" [5; 6]) [] 0
  = Returned (-1) (mk_optional_list "n" "nums" "numbers" [5; 6])
  ∧ optional_list_get_values (mk_optional_list "n" "nums" "numbers" [5; 6]) = [5; 6].
Proof.
  split; [reflexivity|].
  destruct (parse_failure_keeps_payload parse_int [] 0) as (_ & _ & Hol & _).
  destruct (Hol (mk_optional_list "n" "nums" "numbers" [5; 6])
                (mk_optional_list "n" "nums" "numbers" [5; 6]) eq_refl) as (_ & Hvalues & _).
  exact Hvalues.
Defined.

Lemma value_parse_last_call_wins_witness :
  (∃ final,
     consume_each (optional_value_parse parse_int) (mk_optional_value "n" "num" "a number" (Some 0))
       ([(["1"], 1); (["2"; "9"], 2)] ++ [(["3"; "4"], 2)]) = Some final
     ∧ optional_value_get_value final = Some 3)
  ∧ (∃ final,
       consume_each (required_value_parse parse_int) (mk_required_value "count" "how many" None)
         ([(["1"], 1); (["2"; "9"], 2)] ++ [(["3"; "4"], 2)]) = Some final
       ∧ required_value_get_value final = Some 3)
  ∧ ∃ tok x, ["3"; "4"] !! 0%nat = Some tok ∧ parse_int tok = Some x
             ∧ optional_value_get_value (mk_optional_value "n" "num" "a number" (Some 3)) = Some x.
Proof.
  destruct (value_parse_last_call_wins parse_int [(["1"], 1); (["2"; "9"], 2)] ["3"; "4"] 2)
    as (Hruns & Hov & _).
  destruct (Hruns "3" 3) as [Hgo_ov Hgo_rv].
  - apply Forall_cons_2; [simpl; split; [lia|exists "1"; split; [reflexivity|by exists 1]]|].
    apply Forall_cons_2; [simpl; split; [lia|exists "2"; split; [reflexivity|by exists 2]]|].
    apply Forall_nil_2.
  - lia.
  - reflexivity.
  - reflexivity.
  - split_and!.
    + exact (Hgo_ov (mk_optional_value "n" "num" "a number" (Some 0))).
    + exact (Hgo_rv (mk_required_value "count" "how many" None)).
    + exact (Hov (mk_optional_value "n" "num" "a number" (Some 0))
                 (mk_optional_value "n" "num" "a number" (Some 3)) eq_refl).
Defined.

Lemma duplicate_registration_throws_witness :
  (∃ msg, add_optional_arg (class_optional_value builtin_int) verbose_root "v" "volume" "how loud"
          = Thrown (runtime_error msg) verbose_root)
  ∧ (∃ msg, add_required_arg (class_required_list builtin_string) count_root "count" "again"
            = Thrown (runtime_error msg) count_root).
Proof.
  destruct (duplicate_registration_throws verbose_root) as [Hoptional _].
  destruct (duplicate_registration_throws count_root) as [_ Hrequired].
  split.
  - destruct (Hoptional (class_optional_value builtin_int) "v"%char "volume" "how loud")
      as (msg & Hthrown & _).
    + eexists. split; [left|left; reflexivity].
    + by exists msg.
  - destruct (Hrequired (class_required_list builtin_string) "count" "again")
      as (msg & Hthrown & _).
    + eexists. split; [left|reflexivity].
    + by exists msg.
Defined.

Lemma retrieval_of_unknown_name_aborts_witness :
  get_opt_flag verbose_root "quiet" = Aborted
  ∧ get_req_value builtin_int count_root "size" = Aborted.
Proof.
  destruct (retrieval_of_unknown_name_aborts verbose_root) as [Hoptional _].
  destruct (retrieval_of_unknown_name_aborts count_root) as [_ Hrequired].
  split.
  - apply Hoptional. intros o ->%list_elem_of_singleton. discriminate.
  - apply Hrequired. intros a ->%list_elem_of_singleton. discriminate.
Defined.

Lemma short_flag_repeated_or_grouped_witness :
  (∃ r c f, command_parse parse_builtin verbose_root ["-v"; "-v"; "-v"] = Some (Returned r c)
            ∧ _optional c !! 0%nat = Some (ptr_optional_flag f) ∧ cnt f = 3 ∧ is_set f = true)
  ∧ (∃ r c f, command_parse parse_builtin verbose_root ["-vvv"] = Some (Returned r c)
              ∧ _optional c !! 0%nat = Some (ptr_optional_flag f) ∧ cnt f = 3 ∧ is_set f = true).
Proof.
  assert (distinct_flags verbose_root) as Hinv by (split; apply NoDup_singleton).
  split.
  - destruct (short_flag_repeated_or_grouped parse_builtin verbose_root 0
                (mk_optional_flag "v" "verbose" "more output" 0 false) ["-v"; "-v"; "-v"]
                Hinv eq_refl eq_refl eq_refl (or_introl eq_refl))
      as (r & c & f & Hrun & Hf & Hcnt & Hset & _).
    exists r, c, f. auto.
  - destruct (short_flag_repeated_or_grouped parse_builtin verbose_root 0
                (mk_optional_flag "v" "verbose" "more output" 0 false) ["-vvv"]
                Hinv eq_refl eq_refl eq_refl (or_intror eq_refl))
      as (r & c & f & Hrun & Hf & Hcnt & Hset & _).
    exists r, c, f. auto.
Defined.

Lemma required_list_stops_before_flag_witness :
  (∃ c l, command_parse parse_builtin files_root ["a"; "b"; "--flag"]
          = Some (Returned (Consumed 3) c)
          ∧ _required c !! 0%nat = Some (ptr_required_list builtin_string l)
          ∧ required_list_get_values l = ["a"; "b"])
  ∧ (∃ r c l, command_parse parse_builtin files_root (["a"; "b"] ++ ["-f"; "c"])
              = Some (Returned r c)
              ∧ _required c !! 0%nat = Some (ptr_required_list builtin_string l)
              ∧ required_list_get_values l = ["a"; "b"]).
Proof.
  destruct (required_list_stops_before_flag parse_builtin files_root builtin_string
              (mk_required_list "files" "inputs" []) [] eq_refl) as [Hwindow Hflag].
  split.
  - destruct (Hflag 0%nat (mk_optional_flag "f" "flag" "a flag" 0 false) "a" "b"
                eq_refl eq_refl eq_refl eq_refl)
      as (r & c & l & Hrun & Hl & Hvalues & _ & Hr).
    exists c, l. rewrite (Hr eq_refl) in Hrun. auto.
  - destruct (Hwindow ["a"; "b"] ["-f"; "c"] ["a"; "b"]) as [_ (r & c & l & Hrun & Hl & Hvalues)].
    + discriminate.
    + repeat constructor.
    + intros nxt [= <-]. reflexivity.
    + reflexivity.
    + exists r, c, l. auto.
Defined.

(** ** The engine on the inputs of the specification's testable properties *)

Example name_alice :
  command_parse parse_builtin name_root ["--name"; "alice"]
  = Some (Returned (Consumed 2)
            (with_optional name_root
               [ptr_optional_value builtin_string
                  (mk_optional_value "n" "name" "who" (Some "alice"))])).
Proof. reflexivity. Qed.

Example name_alone_misses_value :
  command_parse parse_builtin name_root ["--name"]
  = Some (Returned (Failed (MissingValue "--name")) name_root).
Proof. reflexivity. Qed.

Example count_42 :
  command_parse parse_builtin count_root ["42"]
  = Some (Returned (Consumed 1)
            (with_required count_root
               [ptr_required_value builtin_int (mk_required_value "count" "how many" (Some 42))])).
Proof. reflexivity. Qed.

Example count_abc_fails_conversion :
  command_parse parse_builtin count_root ["abc"]
  = Some (Returned (Failed (ConversionFailure "abc")) count_root).
Proof. reflexivity. Qed.

Example count_missing_is_unsatisfied :
  command_parse parse_builtin count_root []
  = Some (Returned (Failed (UnsatisfiedRequired "count")) count_root).
Proof. reflexivity. Qed.

Example child_7 :
  command_parse parse_builtin parent_root ["child"; "7"]
  = Some (Returned (Consumed 1)
            (with_commands parent_root
               [with_required child_command
                  [ptr_required_value builtin_int (mk_required_value "x" "a number" (Some 7))]])).
Proof. reflexivity. Qed.

Example unknown_7_is_unexpected :
  command_parse parse_builtin parent_root ["unknown"; "7"]
  = Some (Returned (Failed (UnexpectedToken "unknown")) parent_root).
Proof. reflexivity. Qed.

Example child_alone_is_unsatisfied :
  command_parse parse_builtin parent_root ["child"]
  = Some (Returned (Failed (UnsatisfiedRequired "x")) parent_root).
Proof. reflexivity. Qed.

(** A conversion that raises leaves a value spec as it was and a list spec
    with the values pushed before the offending token. *)
Example required_value_abc_throws :
  required_value_parse parse_int (mk_required_value "count" "how many" (Some 1)) ["abc"] 1
  = Thrown (conversion_error "abc") (mk_required_value "count" "how many" (Some 1)).
Proof. reflexivity. Qed.

Example optional_list_abc_throws :
  optional_list_parse parse_int (mk_optional_list "n" "nums" "numbers" [5]) ["7"; "abc"; "9"] 3
  = Thrown (conversion_error "abc") (mk_optional_list "n" "nums" "numbers" [5; 7]).
Proof. reflexivity. Qed.

Lemma result_code_Failed (e : parse_error) : result_code (Failed e) = -1.
Proof. reflexivity. Qed.

Lemma result_code_Consumed (n : Z) : result_code (Consumed n) = n.
Proof. reflexivity. Qed.

(** ** More on the argument model: failing conversions, windows, runs of calls *)

Section ArgumentModelMore.
Context {T : Type} (parse_T : string → option T).

Lemma push_back_each_bad (pre : list string) :
  ∀ (_values : list T) (n : Z) (xs : list T) (bad : string) (post : list string),
    mapM parse_T pre = Some xs → parse_T bad = None →
    push_back_each parse_T (pre ++ bad :: post) _values n
    = Thrown (conversion_error bad) (_values ++ xs).
Proof.
  induction pre as [|v pre IH]; intros vals n xs bad post Hxs Hbad; simpl in *.
  - injection Hxs as <-. by rewrite Hbad, app_nil_r.
  - destruct (parse_T v) as [x|]; simpl in Hxs; [|discriminate].
    destruct (mapM parse_T pre) as [xs'|] eqn:Hm; simpl in Hxs; [|discriminate].
    injection Hxs as <-. rewrite (IH _ _ xs' _ _ eq_refl Hbad), <- app_assoc. done.
Qed.

Lemma push_back_each_state (vs : list string) :
  ∀ (_values : list T) (n : Z) (_values' : list T),
    state_after (push_back_each parse_T vs _values n) = Some _values' →
    ∃ xs, _values' = _values ++ xs.
Proof.
  induction vs as [|v vs IH]; intros vals n vals' Hst; simpl in *.
  - injection Hst as <-. exists []. by rewrite app_nil_r.
  - destruct (parse_T v) as [x|].
    + apply IH in Hst as [xs ->]. exists (x :: xs). by rewrite <- app_assoc.
    + injection Hst as <-. exists []. by rewrite app_nil_r.
Qed.

(** X1. A list parse is not all-or-nothing: when a token of the window does
    not convert, the exception escapes and the spec keeps the values it
    held together with those converted before the offending token. *)
Theorem list_parse_throw_keeps_converted_prefix (argv : list string) (len : Z)
    (pre : list string) (bad : string) (post : list string) (xs : list T) :
  1 ≤ len → len ≤ Z.of_nat (length argv) →
  take (Z.to_nat len) argv = pre ++ bad :: post →
  mapM parse_T pre = Some xs → parse_T bad = None →
  (∀ self : optional_list T,
     optional_list_parse parse_T self argv len
     = Thrown (conversion_error bad) (ol_assign self (ol_values self ++ xs)))
  ∧ (∀ self : required_list T,
       required_list_parse parse_T self argv len
       = Thrown (conversion_error bad) (rl_assign self (rl_values self ++ xs))).
Proof.
  intros Hlen Hfit Hwin Hxs Hbad. split; intros self.
  - unfold optional_list_parse, span. rewrite decide_False by lia.
    rewrite decide_True by done. by rewrite Hwin, (push_back_each_bad _ _ _ xs).
  - unfold required_list_parse, span. rewrite decide_False by lia.
    rewrite decide_True by done. by rewrite Hwin, (push_back_each_bad _ _ _ xs).
Qed.

(** X2. A value parse reads the first token and nothing else: on any
    non-empty window it does what it does on the window of that token
    alone, and when the token does not convert the exception escapes and
    the spec is left as it was. *)
Theorem value_parse_reads_first_token_only (argv : list string) (len : Z) (tok : string) :
  1 ≤ len → argv !! 0%nat = Some tok →
  (∀ self : optional_value T,
     optional_value_parse parse_T self argv len = optional_value_parse parse_T self [tok] 1
     ∧ (parse_T tok = None →
        optional_value_parse parse_T self argv len = Thrown (conversion_error tok) self))
  ∧ (∀ self : required_value T,
       required_value_parse parse_T self argv len = required_value_parse parse_T self [tok] 1
       ∧ (parse_T tok = None →
          required_value_parse parse_T self argv len = Thrown (conversion_error tok) self)).
Proof.
  intros Hlen Htok. split; intros self.
  - unfold optional_value_parse. rewrite decide_False by lia. rewrite decide_False by lia.
    rewrite Htok. simpl. split; [done|]. by intros ->.
  - unfold required_value_parse. rewrite decide_False by lia. rewrite decide_False by lia.
    rewrite Htok. simpl. split; [done|]. by intros ->.
Qed.

(** X3. A list parse reads the [len] tokens of its window and none behind
    it: whatever follows the window in the argument vector makes no
    difference. *)
Theorem list_parse_ignores_tokens_behind_window (argv tail : list string) (len : Z) :
  1 ≤ len → len ≤ Z.of_nat (length argv) →
  (∀ self : optional_list T,
     optional_list_parse parse_T self (take (Z.to_nat len) argv ++ tail) len
     = optional_list_parse parse_T self argv len)
  ∧ (∀ self : required_list T,
       required_list_parse parse_T self (take (Z.to_nat len) argv ++ tail) len
       = required_list_parse parse_T self argv len).
Proof.
  intros Hlen Hfit.
  assert (span (take (Z.to_nat len) argv ++ tail) len = span argv len) as Hspan.
  { unfold span. rewrite decide_True by (rewrite length_app, length_take; lia).
    rewrite decide_True by done. f_equal.
    rewrite take_app_le by (rewrite length_take; lia). apply take_idemp. }
  split; intros self.
  - unfold optional_list_parse. by rewrite Hspan.
  - unfold required_list_parse. by rewrite Hspan.
Qed.

(** X4. Whatever a list parse does (return the sentinel, return a count,
    or let a conversion error escape), the spec keeps its names and its
    stored values stay in place at the front: values are only ever added
    at the end. *)
Theorem list_parse_only_appends (argv : list string) (len : Z) :
  (∀ self self' : optional_list T,
     state_after (optional_list_parse parse_T self argv len) = Some self' →
     ol_short self' = ol_short self ∧ ol_long self' = ol_long self
     ∧ ol_desc self' = ol_desc self
     ∧ ∃ xs, optional_list_get_values self' = optional_list_get_values self ++ xs)
  ∧ (∀ self self' : required_list T,
       state_after (required_list_parse parse_T self argv len) = Some self' →
       rl_name self' = rl_name self ∧ rl_desc self' = rl_desc self
       ∧ ∃ xs, required_list_get_values self' = required_list_get_values self ++ xs).
Proof.
  split; intros self self'.
  - unfold optional_list_parse. destruct (decide (len < 1)).
    + intros [= <-]. split_and!; [done..|]. exists []. by rewrite app_nil_r.
    + destruct (span argv len) as [vs|]; [|done].
      intros (vals & [xs ->]%push_back_each_state & ->)%state_after_with_state.
      split_and!; [done..|]. by exists xs.
  - unfold required_list_parse. destruct (decide (len < 1)).
    + intros [= <-]. split_and!; [done..|]. exists []. by rewrite app_nil_r.
    + destruct (span argv len) as [vs|]; [|done].
      intros (vals & [xs ->]%push_back_each_state & ->)%state_after_with_state.
      split_and!; [done..|]. by exists xs.
Qed.

(** X5. Whatever a value parse does, the spec keeps its names, and its
    stored value is either the one from before or the conversion of the
    first token of the window. *)
Theorem value_parse_changes_value_only (argv : list string) (len : Z) :
  (∀ self self' : optional_value T,
     state_after (optional_value_parse parse_T self argv len) = Some self' →
     ov_short self' = ov_short self ∧ ov_long self' = ov_long self
     ∧ ov_desc self' = ov_desc self
     ∧ (optional_value_get_value self' = optional_value_get_value self
        ∨ ∃ tok x, argv !! 0%nat = Some tok ∧ parse_T tok = Some x
                   ∧ optional_value_get_value self' = Some x))
  ∧ (∀ self self' : required_value T,
       state_after (required_value_parse parse_T self argv len) = Some self' →
       rv_name self' = rv_name self ∧ rv_desc self' = rv_desc self
       ∧ (required_value_get_value self' = required_value_get_value self
          ∨ ∃ tok x, argv !! 0%nat = Some tok ∧ parse_T tok = Some x
                     ∧ required_value_get_value self' = Some x)).
Proof.
  split; intros self self'.
  - unfold optional_value_parse. destruct (decide (len < 1)).
    + intros [= <-]. split_and!; auto.
    + destruct (argv !! 0%nat) as [tok|] eqn:Htok; [|done].
      destruct (parse_T tok) as [x|] eqn:Hx; intros [= <-]; split_and!; auto.
      right. by exists tok, x.
  - unfold required_value_parse. destruct (decide (len < 1)).
    + intros [= <-]. split_and!; auto.
    + destruct (argv !! 0%nat) as [tok|] eqn:Htok; [|done].
      destruct (parse_T tok) as [x|] eqn:Hx; intros [= <-]; split_and!; auto.
      right. by exists tok, x.
Qed.

(** X6. A list parse that returns a count has stored exactly that many new
    values, and at least one: after a successful parse the list is never
    empty. *)
Theorem list_parse_count_is_growth (argv : list string) (len n : Z) :
  0 ≤ n →
  (∀ self self' : optional_list T,
     optional_list_parse parse_T self argv len = Returned n self' →
     1 ≤ n
     ∧ Z.of_nat (length (optional_list_get_values self'))
       = Z.of_nat (length (optional_list_get_values self)) + n
     ∧ optional_list_get_values self' ≠ [])
  ∧ (∀ self self' : required_list T,
       required_list_parse parse_T self argv len = Returned n self' →
       1 ≤ n
       ∧ Z.of_nat (length (required_list_get_values self'))
         = Z.of_nat (length (required_list_get_values self)) + n
       ∧ required_list_get_values self' ≠ []).
Proof.
  intros Hn. split; intros self self' Hrun.
  - apply optional_list_parse_Returned in Hrun
      as [(_ & -> & _)|(Hlen & Hfit & -> & xs & Hxs & ->)]; [lia|].
    apply length_mapM in Hxs. rewrite length_take in Hxs.
    unfold optional_list_get_values. simpl. rewrite length_app.
    split_and!; [done|lia|].
    intros Hnil%(f_equal length). rewrite length_app in Hnil. simpl in Hnil. lia.
  - apply required_list_parse_Returned in Hrun
      as [(_ & -> & _)|(Hlen & Hfit & -> & xs & Hxs & ->)]; [lia|].
    apply length_mapM in Hxs. rewrite length_take in Hxs.
    unfold required_list_get_values. simpl. rewrite length_app.
    split_and!; [done|lia|].
    intros Hnil%(f_equal length). rewrite length_app in Hnil. simpl in Hnil. lia.
Qed.

(** X7. Over any run of successful calls a list spec holds what it held
    before followed by the converted windows of the calls, in call order. *)
Theorem list_parse_accumulates_over_calls (calls : list (list string * Z)) :
  (∀ self final : optional_list T,
     consume_each (optional_list_parse parse_T) self calls = Some final →
     ∃ xss : list (list T),
       Forall2 (λ call xs, 1 ≤ call.2
                           ∧ mapM parse_T (take (Z.to_nat call.2) call.1) = Some xs) calls xss
       ∧ optional_list_get_values final = optional_list_get_values self ++ concat xss)
  ∧ (∀ self final : required_list T,
       consume_each (required_list_parse parse_T) self calls = Some final →
       ∃ xss : list (list T),
         Forall2 (λ call xs, 1 ≤ call.2
                             ∧ mapM parse_T (take (Z.to_nat call.2) call.1) = Some xs) calls xss
         ∧ required_list_get_values final = required_list_get_values self ++ concat xss).
Proof.
  split.
  - induction calls as [|[argv len] calls IH]; intros self final; simpl.
    + intros [= <-]. exists []. split; [constructor|]. by rewrite app_nil_r.
    + destruct (optional_list_parse parse_T self argv len) as [n self'| | |] eqn:Hrun; try done.
      destruct (decide (0 ≤ n)) as [Hn|]; [|done]. intros Hrest.
      apply optional_list_parse_Returned in Hrun
        as [(_ & -> & _)|(Hlen & Hfit & -> & xs & Hxs & ->)]; [lia|].
      apply IH in Hrest as (xss & Hall & Hvalues). exists (xs :: xss).
      split; [by constructor|]. rewrite Hvalues. simpl. by rewrite <- app_assoc.
  - induction calls as [|[argv len] calls IH]; intros self final; simpl.
    + intros [= <-]. exists []. split; [constructor|]. by rewrite app_nil_r.
    + destruct (required_list_parse parse_T self argv len) as [n self'| | |] eqn:Hrun; try done.
      destruct (decide (0 ≤ n)) as [Hn|]; [|done]. intros Hrest.
      apply required_list_parse_Returned in Hrun
        as [(_ & -> & _)|(Hlen & Hfit & -> & xs & Hxs & ->)]; [lia|].
      apply IH in Hrest as (xss & Hall & Hvalues). exists (xs :: xss).
      split; [by constructor|]. rewrite Hvalues. simpl. by rewrite <- app_assoc.
Qed.

(** X8. [get_value] of a value spec that starts without a value is the
    null pointer until the first successful parse and not afterwards:
    after a run of successful calls it is null exactly when the run is
    empty. *)
Theorem value_unset_until_first_parse (calls : list (list string * Z)) :
  (∀ self final : optional_value T,
     optional_value_get_value self = None →
     consume_each (optional_value_parse parse_T) self calls = Some final →
     (optional_value_get_value final = None ↔ calls = []))
  ∧ (∀ self final : required_value T,
       required_value_get_value self = None →
       consume_each (required_value_parse parse_T) self calls = Some final →
       (required_value_get_value final = None ↔ calls = [])).
Proof.
  split; intros self final Hself Hrun.
  - destruct calls as [|call calls _] using rev_ind.
    + injection Hrun as <-. done.
    + destruct call as [argv len].
      apply consume_each_last in Hrun as (before & n & _ & Hlast & Hn).
      apply optional_value_parse_Returned in Hlast
        as [(_ & -> & _)|(_ & _ & tok & x & _ & _ & ->)]; [lia|].
      split; [done|]. intros Hnil. by destruct calls.
  - destruct calls as [|call calls _] using rev_ind.
    + injection Hrun as <-. done.
    + destruct call as [argv len].
      apply consume_each_last in Hrun as (before & n & _ & Hlast & Hn).
      apply required_value_parse_Returned in Hlast
        as [(_ & -> & _)|(_ & _ & tok & x & _ & _ & ->)]; [lia|].
      split; [done|]. intros Hnil. by destruct calls.
Qed.

End ArgumentModelMore.

(** ** More on the registries: registration, runs of registrations, retrieval *)

Section RegistryMore.
Context {ty : Type} `{!EqDecision ty} {den : ty → Type}.
Implicit Types (self : command den) (o : optional den) (a : argument den).

Lemma add_optional_arg_Returned (Opt : optional_class) self self' (_short : ascii)
    (_long _desc : string) (h : nat) :
  add_optional_arg Opt self _short _long _desc = Returned h self' ↔
  (∀ o, o ∈ _optional self → (abbr o).1 ≠ _short ∧ (abbr o).2 ≠ _long)
  ∧ h = length (_optional self)
  ∧ self' = with_optional self
              (_optional self ++ [make_unique_optional den Opt _short _long _desc]).
Proof.
  split.
  - unfold add_optional_arg. destruct (existsb _ _) eqn:Hany; [done|]. intros [= <- <-].
    split; [|done]. intros o Hin.
    split; intros Heq;
      (assert (existsb (λ ptr : optional den, let '(s, l) := abbr ptr in
                 bool_decide (s = _short) || bool_decide (l = _long)) (_optional self) = true)
         as Habs by (apply any_of_optional; eauto)); congruence.
  - intros (Hnew & -> & ->). by apply add_optional_arg_new.
Qed.

Lemma add_required_arg_Returned (Arg : argument_class) self self' (_name _desc : string) :
  add_required_arg Arg self _name _desc = Returned () self' ↔
  (∀ a, a ∈ _required self → name a ≠ _name)
  ∧ self' = with_required self (_required self ++ [make_unique_argument den Arg _name _desc]).
Proof.
  split.
  - unfold add_required_arg. destruct (existsb _ _) eqn:Hany; [done|]. intros [= <-].
    split; [|done]. intros a Hin Heq.
    assert (existsb (λ ptr : argument den, bool_decide (_name = name ptr)) (_required self) = true)
      as Habs by (apply any_of_required; eauto).
    congruence.
  - intros (Hnew & ->). by apply add_required_arg_new.
Qed.

Lemma add_optional_arg_not_stuck (Opt : optional_class) self (_short : ascii)
    (_long _desc : string) :
  (∃ h self', add_optional_arg Opt self _short _long _desc = Returned h self')
  ∨ (∃ msg, add_optional_arg Opt self _short _long _desc = Thrown (runtime_error msg) self).
Proof. unfold add_optional_arg. destruct (existsb _ _); eauto. Qed.

Lemma add_required_arg_not_stuck (Arg : argument_class) self (_name _desc : string) :
  (∃ self', add_required_arg Arg self _name _desc = Returned () self')
  ∨ (∃ msg, add_required_arg Arg self _name _desc = Thrown (runtime_error msg) self).
Proof. unfold add_required_arg. destruct (existsb _ _); eauto. Qed.

(** Under distinct keys the specs with the key of the one at position [i]
    are that one alone. *)
Lemma filter_distinct_key {A K : Type} `{!EqDecision K} (key : A → K) (l : list A) :
  ∀ (i : nat) (x : A),
    NoDup (key <$> l) → l !! i = Some x → filter (λ y, key y = key x) l = [x].
Proof.
  induction l as [|y l IH]; intros i x Hnd Hi; [done|].
  rewrite fmap_cons in Hnd. apply list.NoDup_cons in Hnd as [Hy Hnd].
  destruct i as [|i]; simpl in Hi.
  - injection Hi as ->. rewrite filter_cons_True by done. f_equal.
    apply filter_nil_iff. intros z Hz Heq. apply Hy. rewrite <- Heq.
    apply list_elem_of_fmap. eauto.
  - rewrite filter_cons_False; [by eapply IH|].
    intros Heq. apply Hy. rewrite Heq. apply list_elem_of_fmap.
    exists x. split; [done|]. by eapply list_elem_of_lookup_2.
Qed.

(** X9. [add_optional_arg] returns exactly when no registered optional
    spec has the short flag or the long flag; it then has appended one new
    spec of the class asked for, with these flags, behind the registered
    ones, changed nothing else of the command, and the reference it hands
    out is to that spec. *)
Theorem add_optional_arg_returns_iff_new (Opt : optional_class) self (_short : ascii)
    (_long _desc : string) :
  ((∃ h self', add_optional_arg Opt self _short _long _desc = Returned h self')
   ↔ ∀ o, o ∈ _optional self → (abbr o).1 ≠ _short ∧ (abbr o).2 ≠ _long)
  ∧ ∀ h self',
      add_optional_arg Opt self _short _long _desc = Returned h self' →
      _optional self' = _optional self ++ [make_unique_optional den Opt _short _long _desc]
      ∧ _required self' = _required self ∧ _commands self' = _commands self
      ∧ cmd_name self' = cmd_name self ∧ cmd_desc self' = cmd_desc self
      ∧ ∃ o, _optional self' !! h = Some o ∧ abbr o = (_short, _long)
             ∧ dynamic_class_optional o = Opt.
Proof.
  split.
  - split.
    + intros (h & self' & Hrun). by apply add_optional_arg_Returned in Hrun as (? & _).
    + intros Hnew. eexists _, _. by apply add_optional_arg_new.
  - intros h self' (_ & -> & ->)%add_optional_arg_Returned. simpl.
    split_and!; [done..|]. eexists. split; [by apply list_lookup_middle|].
    split; [apply abbr_make_unique_optional | apply dynamic_class_make_unique_optional].
Qed.

(** X10. [add_required_arg] returns exactly when no registered required
    spec has the name; it then has appended one new spec of the class
    asked for, with this name, behind the registered ones and changed
    nothing else of the command. *)
Theorem add_required_arg_returns_iff_new (Arg : argument_class) self (_name _desc : string) :
  ((∃ self', add_required_arg Arg self _name _desc = Returned () self')
   ↔ ∀ a, a ∈ _required self → name a ≠ _name)
  ∧ ∀ self',
      add_required_arg Arg self _name _desc = Returned () self' →
      _required self' = _required self ++ [make_unique_argument den Arg _name _desc]
      ∧ _optional self' = _optional self ∧ _commands self' = _commands self
      ∧ cmd_name self' = cmd_name self ∧ cmd_desc self' = cmd_desc self
      ∧ ∃ a, list.last (_required self') = Some a ∧ name a = _name
             ∧ dynamic_class_argument a = Arg.
Proof.
  split.
  - split.
    + intros (self' & Hrun). by apply add_required_arg_Returned in Hrun as (? & _).
    + intros Hnew. eexists. by apply add_required_arg_new.
  - intros self' (_ & ->)%add_required_arg_Returned. simpl.
    split_and!; [done..|]. eexists. split; [apply last_snoc|].
    split; [apply name_make_unique_argument | apply dynamic_class_make_unique_argument].
Qed.

(** X11. The registration helpers keep the invariant of the registries: in
    a command whose optional specs have pairwise distinct short flags and
    pairwise distinct long flags and whose required specs have pairwise
    distinct names, a registration that returns leaves a command of the
    same kind. *)
Theorem registration_keeps_registries_distinct self :
  distinct_flags self → distinct_names self →
  (∀ (Opt : optional_class) (_short : ascii) (_long _desc : string) h self',
     add_optional_arg Opt self _short _long _desc = Returned h self' →
     distinct_flags self' ∧ distinct_names self')
  ∧ (∀ (Arg : argument_class) (_name _desc : string) self',
       add_required_arg Arg self _name _desc = Returned () self' →
       distinct_flags self' ∧ distinct_names self').
Proof.
  intros Hflags Hnames. split.
  - intros Opt _short _long _desc h self' Hrun. split.
    + by eapply add_optional_arg_distinct.
    + by apply add_optional_arg_Returned in Hrun as (_ & _ & ->).
  - intros Arg _name _desc self' Hrun. split.
    + by apply add_required_arg_Returned in Hrun as (_ & ->).
    + by eapply add_required_arg_distinct.
Qed.

(** *** Runs of registrations *)

Lemma register_each_registers (calls : list (registration ty)) :
  ∀ self c,
    register_each self calls = Returned () c →
    _optional c = _optional self ++ omap (registered_optional den) calls
    ∧ _required c = _required self ++ omap (registered_argument den) calls
    ∧ _commands c = _commands self ∧ cmd_name c = cmd_name self.
Proof.
  induction calls as [|[Opt s l d|Arg n d] calls IH]; intros self c; simpl.
  - intros [= <-]. by rewrite !app_nil_r.
  - destruct (add_optional_arg Opt self s l d) as [h self'| | |] eqn:Hrun; try done.
    apply add_optional_arg_Returned in Hrun as (_ & _ & ->).
    intros (-> & -> & -> & ->)%IH. simpl. by rewrite <- app_assoc.
  - destruct (add_required_arg Arg self n d) as [[] self'| | |] eqn:Hrun; try done.
    apply add_required_arg_Returned in Hrun as (_ & ->).
    intros (-> & -> & -> & ->)%IH. simpl. by rewrite <- app_assoc.
Qed.

Lemma NoDup_middle_fresh {A : Type} (l k : list A) (x : A) :
  NoDup (l ++ (x :: k)) → x ∉ l.
Proof.
  intros (_ & Hdis & _)%list.NoDup_app Hin. apply (Hdis x Hin). left.
Qed.

Lemma register_each_distinct (calls : list (registration ty)) :
  ∀ self,
    distinct_flags self → distinct_names self →
    (∃ c, register_each self calls = Returned () c)
    ↔ NoDup ((λ o : optional den, (abbr o).1)
               <$> (_optional self ++ omap (registered_optional den) calls))
      ∧ NoDup ((λ o : optional den, (abbr o).2)
                 <$> (_optional self ++ omap (registered_optional den) calls))
      ∧ NoDup (name <$> (_required self ++ omap (registered_argument den) calls)).
Proof.
  induction calls as [|[Opt s l d|Arg n d] calls IH]; intros self Hflags Hnames; simpl.
  - rewrite !app_nil_r. destruct Hflags. split; [done|eauto].
  - destruct (add_optional_arg_not_stuck Opt self s l d)
      as [(h & self' & Hrun)|(msg & Hrun)]; rewrite Hrun.
    + pose proof (add_optional_arg_distinct _ _ _ _ _ _ _ Hflags Hrun) as Hflags'.
      apply add_optional_arg_Returned in Hrun as (_ & _ & ->).
      rewrite (IH _ Hflags' Hnames). simpl. by rewrite <- !app_assoc.
    + split; [by intros [c [=]]|]. intros (Hs & Hl & _). exfalso.
      assert (existsb (λ ptr : optional den, let '(s0, l0) := abbr ptr in
                bool_decide (s0 = s) || bool_decide (l0 = l)) (_optional self) = true) as Hany.
      { unfold add_optional_arg in Hrun. by destruct (existsb _ _). }
      rewrite fmap_app, fmap_cons, abbr_make_unique_optional in Hs.
      rewrite fmap_app, fmap_cons, abbr_make_unique_optional in Hl.
      apply NoDup_middle_fresh in Hs. apply NoDup_middle_fresh in Hl.
      apply any_of_optional in Hany as (o & Hin & [Heq|Heq]).
      * apply Hs, list_elem_of_fmap. eauto.
      * apply Hl, list_elem_of_fmap. eauto.
  - destruct (add_required_arg_not_stuck Arg self n d) as [(self' & Hrun)|(msg & Hrun)];
      rewrite Hrun.
    + pose proof (add_required_arg_distinct _ _ _ _ _ Hnames Hrun) as Hnames'.
      apply add_required_arg_Returned in Hrun as (_ & ->).
      assert (distinct_flags
                (with_required self (_required self ++ [make_unique_argument den Arg n d])))
        as Hflags' by done.
      rewrite (IH _ Hflags' Hnames'). simpl. by rewrite <- !app_assoc.
    + split; [by intros [c [=]]|]. intros (_ & _ & Hn). exfalso.
      assert (existsb (λ ptr : argument den, bool_decide (n = name ptr)) (_required self) = true)
        as Hany.
      { unfold add_required_arg in Hrun. by destruct (existsb _ _). }
      rewrite fmap_app, fmap_cons, name_make_unique_argument in Hn.
      apply NoDup_middle_fresh in Hn.
      apply any_of_required in Hany as (a & Hin & Heq).
      apply Hn, list_elem_of_fmap. eauto.
Qed.

(** X12. A run of registrations on a command with empty registries goes
    through exactly when the short flags asked for are pairwise distinct,
    the long flags are pairwise distinct and the names are pairwise
    distinct; otherwise one of the calls throws. *)
Theorem register_each_returns_iff_distinct self (calls : list (registration ty)) :
  _optional self = [] → _required self = [] →
  (∃ c, register_each self calls = Returned () c)
  ↔ NoDup ((λ o : optional den, (abbr o).1) <$> omap (registered_optional den) calls)
    ∧ NoDup ((λ o : optional den, (abbr o).2) <$> omap (registered_optional den) calls)
    ∧ NoDup (name <$> omap (registered_argument den) calls).
Proof.
  intros Hopt Hreq. rewrite register_each_distinct.
  - by rewrite Hopt, Hreq.
  - unfold distinct_flags. rewrite Hopt. split; constructor.
  - unfold distinct_names. rewrite Hreq. constructor.
Qed.

(** X13. A run of registrations that goes through has appended the new
    specs to the two registries in call order, behind the specs that were
    registered, and every earlier spec is still where it was: references
    handed out before stay good. *)
Theorem register_each_appends_in_order self c (calls : list (registration ty)) :
  register_each self calls = Returned () c →
  _optional c = _optional self ++ omap (registered_optional den) calls
  ∧ _required c = _required self ++ omap (registered_argument den) calls
  ∧ (∀ h o, _optional self !! h = Some o → _optional c !! h = Some o)
  ∧ (∀ h a, _required self !! h = Some a → _required c !! h = Some a).
Proof.
  intros (Hopt & Hreq & _)%register_each_registers. rewrite Hopt, Hreq.
  split_and!; [done|done| |]; intros h x Hh; by apply lookup_app_l_Some.
Qed.

End RegistryMore.

Section RetrievalMore.
Context {ty : Type} `{!EqDecision ty} {den : ty → Type}.
Implicit Types (self : command den) (o : optional den) (a : argument den).

#[local] Existing Instance optional_class_eq_dec.
#[local] Existing Instance argument_class_eq_dec.

Lemma get_optional_first (T : optional_class) self (_long : string) o (v : list (optional den)) :
  filter (λ ptr : optional den, (abbr ptr).2 = _long) (_optional self) = o :: v →
  get_optional T self _long
  = if decide (dynamic_class_optional o = T) then Returned o self else Undefined.
Proof. intros Hv. unfold get_optional. by rewrite Hv. Qed.

Lemma get_required_first (T : argument_class) self (_name : string) a (v : list (argument den)) :
  filter (λ ptr : argument den, name ptr = _name) (_required self) = a :: v →
  get_required T self _name
  = if decide (dynamic_class_argument a = T) then Returned a self else Undefined.
Proof. intros Hv. unfold get_required. by rewrite Hv. Qed.

Lemma get_optional_Returned (T : optional_class) self self' (_long : string) o :
  get_optional T self _long = Returned o self' →
  self' = self
  ∧ ∃ v, filter (λ ptr : optional den, (abbr ptr).2 = _long) (_optional self) = o :: v
         ∧ dynamic_class_optional o = T.
Proof.
  unfold get_optional. destruct (filter _ _) as [|ptr v] eqn:Hv; [done|].
  destruct (decide _) as [Hclass|]; [|done]. intros [= <- <-]. eauto.
Qed.

Lemma get_required_Returned (T : argument_class) self self' (_name : string) a :
  get_required T self _name = Returned a self' →
  self' = self
  ∧ ∃ v, filter (λ ptr : argument den, name ptr = _name) (_required self) = a :: v
         ∧ dynamic_class_argument a = T.
Proof.
  unfold get_required. destruct (filter _ _) as [|ptr v] eqn:Hv; [done|].
  destruct (decide _) as [Hclass|]; [|done]. intros [= <- <-]. eauto.
Qed.

(** X14. What the retrieval helpers return is right and retrieval changes
    nothing: a spec returned by [get_optional<T>] is a registered optional
    spec with the long name asked for and of class [T], one returned by
    [get_required<T>] a registered required spec with the name asked for
    and of class [T], and the command is as before. *)
Theorem retrieval_returns_only_matching_specs self :
  (∀ (T : optional_class) (_long : string) o self',
     get_optional T self _long = Returned o self' →
     self' = self ∧ o ∈ _optional self ∧ (abbr o).2 = _long
     ∧ dynamic_class_optional o = T)
  ∧ (∀ (T : argument_class) (_name : string) a self',
       get_required T self _name = Returned a self' →
       self' = self ∧ a ∈ _required self ∧ name a = _name
       ∧ dynamic_class_argument a = T).
Proof.
  split.
  - intros T _long o self' (-> & v & Hv & Hclass)%get_optional_Returned.
    assert (o ∈ filter (λ ptr : optional den, (abbr ptr).2 = _long) (_optional self))
      as [Hlong Hin]%list_elem_of_filter by (rewrite Hv; left).
    done.
  - intros T _name a self' (-> & v & Hv & Hclass)%get_required_Returned.
    assert (a ∈ filter (λ ptr : argument den, name ptr = _name) (_required self))
      as [Hname Hin]%list_elem_of_filter by (rewrite Hv; left).
    done.
Qed.

(** X15. In a command whose long flags are pairwise distinct every
    registered optional spec is retrieved by its long name and its own
    class, and in a command whose names are pairwise distinct every
    registered required spec by its name and its own class. *)
Theorem every_registered_spec_is_retrievable self :
  (distinct_flags self →
   ∀ (i : nat) o, _optional self !! i = Some o →
     get_optional (dynamic_class_optional o) self (abbr o).2 = Returned o self)
  ∧ (distinct_names self →
     ∀ (i : nat) a, _required self !! i = Some a →
       get_required (dynamic_class_argument a) self (name a) = Returned a self).
Proof.
  split.
  - intros [_ Hlong] i o Hi.
    rewrite (get_optional_first _ _ _ o []).
    + by rewrite decide_True.
    + by apply (filter_distinct_key (λ ptr : optional den, (abbr ptr).2) _ i).
  - intros Hname i a Hi.
    rewrite (get_required_first _ _ _ a []).
    + by rewrite decide_True.
    + by apply (filter_distinct_key name _ i).
Qed.

(** X16. Asking for a registered spec under another class than its own
    neither returns nor aborts: [dynamic_cast] gives a null pointer and the
    helper dereferences it. *)
Theorem retrieval_under_wrong_class_is_undefined self :
  (distinct_flags self →
   ∀ (T : optional_class) (i : nat) o,
     _optional self !! i = Some o → dynamic_class_optional o ≠ T →
     get_optional T self (abbr o).2 = Undefined)
  ∧ (distinct_names self →
     ∀ (T : argument_class) (i : nat) a,
       _required self !! i = Some a → dynamic_class_argument a ≠ T →
       get_required T self (name a) = Undefined).
Proof.
  split.
  - intros [_ Hlong] T i o Hi Hclass.
    rewrite (get_optional_first _ _ _ o []).
    + by rewrite decide_False.
    + by apply (filter_distinct_key (λ ptr : optional den, (abbr ptr).2) _ i).
  - intros Hname T i a Hi Hclass.
    rewrite (get_required_first _ _ _ a []).
    + by rewrite decide_False.
    + by apply (filter_distinct_key name _ i).
Qed.

(** X17. Register, then retrieve: after [add_optional_arg<Opt>] has
    returned, [get_optional<Opt>] on the long flag returns the new spec, the
    one the reference is to; after [add_required_arg<Arg>] has returned,
    [get_required<Arg>] on the name returns the new spec. *)
Theorem registered_spec_is_retrieved_by_name self self' :
  (∀ (Opt : optional_class) (_short : ascii) (_long _desc : string) (h : nat),
     add_optional_arg Opt self _short _long _desc = Returned h self' →
     get_optional Opt self' _long
     = Returned (make_unique_optional den Opt _short _long _desc) self'
     ∧ _optional self' !! h = Some (make_unique_optional den Opt _short _long _desc))
  ∧ (∀ (Arg : argument_class) (_name _desc : string),
       add_required_arg Arg self _name _desc = Returned () self' →
       get_required Arg self' _name
       = Returned (make_unique_argument den Arg _name _desc) self').
Proof.
  split.
  - intros Opt _short _long _desc h Hrun.
    pose proof (add_optional_arg_reference _ _ _ _ _ _ _ Hrun) as [Href _].
    apply add_optional_arg_Returned in Hrun as (Hnew & _ & ->). split; [|done].
    rewrite (get_optional_first _ _ _ (make_unique_optional den Opt _short _long _desc) []).
    + by rewrite decide_True by apply dynamic_class_make_unique_optional.
    + simpl. rewrite list.filter_app.
      rewrite (proj2 (filter_nil_iff _ (_optional self))) by (intros o Hin; by destruct (Hnew o Hin)).
      rewrite filter_cons_True by (by rewrite abbr_make_unique_optional). done.
  - intros Arg _name _desc Hrun.
    apply add_required_arg_Returned in Hrun as (Hnew & ->).
    rewrite (get_required_first _ _ _ (make_unique_argument den Arg _name _desc) []).
    + by rewrite decide_True by apply dynamic_class_make_unique_argument.
    + simpl. rewrite list.filter_app.
      rewrite (proj2 (filter_nil_iff _ (_required self))) by (intros a Hin; by apply Hnew).
      rewrite filter_cons_True by apply name_make_unique_argument. done.
Qed.

(** X18. Registration does not disturb retrieval: a spec that a retrieval
    helper returns is returned by it still after any registration that
    goes through. *)
Theorem retrieval_survives_registration self (calls : list (registration ty)) c :
  register_each self calls = Returned () c →
  (∀ (T : optional_class) (_long : string) o,
     get_optional T self _long = Returned o self →
     get_optional T c _long = Returned o c)
  ∧ (∀ (T : argument_class) (_name : string) a,
       get_required T self _name = Returned a self →
       get_required T c _name = Returned a c).
Proof.
  intros (Hopt & Hreq & _)%register_each_registers. split.
  - intros T _long o (_ & v & Hv & Hclass)%get_optional_Returned.
    rewrite (get_optional_first _ _ _ o
               (v ++ filter (λ ptr : optional den, (abbr ptr).2 = _long)
                       (omap (registered_optional den) calls))).
    + by rewrite decide_True.
    + by rewrite Hopt, list.filter_app, Hv.
  - intros T _name a (_ & v & Hv & Hclass)%get_required_Returned.
    rewrite (get_required_first _ _ _ a
               (v ++ filter (λ ptr : argument den, name ptr = _name)
                       (omap (registered_argument den) calls))).
    + by rewrite decide_True.
    + by rewrite Hreq, list.filter_app, Hv.
Qed.

(** X19. The three-argument [add_req_list<T>(flag, long_flag, description)]
    registers an optional list: when it returns, the required registry is
    as before, [get_opt_list<T>] on the long flag returns the new, empty
    list, and [get_req_list<T>] on it aborts unless a required spec of that
    name had been registered. *)
Theorem add_req_list_with_flag_registers_optional (t : ty) self self' (flag : ascii)
    (long_flag description : string) (h : nat) :
  add_req_list_flag t self flag long_flag description = Returned h self' →
  _required self' = _required self
  ∧ get_opt_list t self' long_flag
    = Returned (ptr_optional_list t (mk_optional_list flag long_flag description [])) self'
  ∧ ((∀ a, a ∈ _required self → name a ≠ long_flag) →
     get_req_list t self' long_flag = Aborted).
Proof.
  unfold add_req_list_flag, get_opt_list, get_req_list. intros Hrun. split_and!.
  - by apply add_optional_arg_Returned in Hrun as (_ & _ & ->).
  - apply add_optional_arg_Returned in Hrun as (Hnew & _ & ->).
    rewrite (get_optional_first _ _ _
               (ptr_optional_list t (mk_optional_list flag long_flag description [])) []).
    + by rewrite decide_True.
    + simpl. rewrite list.filter_app.
      rewrite (proj2 (filter_nil_iff _ (_optional self))) by (intros o Hin; by destruct (Hnew o Hin)).
      by rewrite filter_cons_True.
  - intros Hnone. apply get_required_Aborted.
    by apply add_optional_arg_Returned in Hrun as (_ & _ & ->).
Qed.

End RetrievalMore.

(** ** The further properties at work on concrete inputs *)

Lemma list_parse_throw_keeps_converted_prefix_witness :
  optional_list_parse parse_int (mk_optional_list "n" "nums" "numbers" [5]) ["7"; "abc"; "9"] 3
  = Thrown (conversion_error "abc") (mk_optional_list "n" "nums" "numbers" [5; 7]).
Proof.
  destruct (list_parse_throw_keeps_converted_prefix parse_int
              ["7"; "abc"; "9"] 3 ["7"] "abc" ["9"] [7]) as [Hol _].
  - lia.
  - simpl. lia.
  - reflexivity.
  - reflexivity.
  - reflexivity.
  - exact (Hol (mk_optional_list "n" "nums" "numbers" [5])).
Defined.

Lemma value_parse_reads_first_token_only_witness :
  required_value_parse parse_int (mk_required_value "count" "how many" (Some 1)) ["abc"; "2"] 2
  = Thrown (conversion_error "abc") (mk_required_value "count" "how many" (Some 1))
  ∧ optional_value_parse parse_int (mk_optional_value "n" "num" "a number" None) ["7"; "8"] 2
    = optional_value_parse parse_int (mk_optional_value "n" "num" "a number" None) ["7"] 1.
Proof.
  split.
  - destruct (value_parse_reads_first_token_only parse_int ["abc"; "2"] 2 "abc") as [_ Hrv];
      [lia|reflexivity|].
    exact (proj2 (Hrv (mk_required_value "count" "how many" (Some 1))) eq_refl).
  - destruct (value_parse_reads_first_token_only parse_int ["7"; "8"] 2 "7") as [Hov _];
      [lia|reflexivity|].
    exact (proj1 (Hov (mk_optional_value "n" "num" "a number" None))).
Defined.

Lemma list_parse_ignores_tokens_behind_window_witness :
  required_list_parse parse_string (mk_required_list "files" "inputs" [])
    (take (Z.to_nat 2) ["a"; "b"; "--flag"] ++ ["c"]) 2
  = required_list_parse parse_string (mk_required_list "files" "inputs" [])
      ["a"; "b"; "--flag"] 2.
Proof.
  destruct (list_parse_ignores_tokens_behind_window parse_string
              ["a"; "b"; "--flag"] ["c"] 2) as [_ Hrl].
  - lia.
  - simpl. lia.
  - exact (Hrl (mk_required_list "files" "inputs" [])).
Defined.

Lemma list_parse_only_appends_witness :
  ∃ xs, optional_list_get_values (mk_optional_list "n" "nums" "numbers" [5; 7])
        = optional_list_get_values (mk_optional_list "n" "nums" "numbers" [5]) ++ xs.
Proof.
  destruct (list_parse_only_appends parse_int ["7"; "abc"; "9"] 3) as [Hol _].
  destruct (Hol (mk_optional_list "n" "nums" "numbers" [5])
                (mk_optional_list "n" "nums" "numbers" [5; 7]) eq_refl)
    as (_ & _ & _ & Hvalues).
  exact Hvalues.
Defined.

Lemma value_parse_changes_value_only_witness :
  required_value_get_value (mk_required_value "count" "how many" (Some 2))
  = required_value_get_value (mk_required_value "count" "how many" (Some 1))
  ∨ ∃ tok x, ["2"; "abc"] !! 0%nat = Some tok ∧ parse_int tok = Some x
             ∧ required_value_get_value (mk_required_value "count" "how many" (Some 2)) = Some x.
Proof.
  destruct (value_parse_changes_value_only parse_int ["2"; "abc"] 1) as [_ Hrv].
  destruct (Hrv (mk_required_value "count" "how many" (Some 1))
                (mk_required_value "count" "how many" (Some 2)) eq_refl)
    as (_ & _ & Hvalue).
  exact Hvalue.
Defined.

Lemma list_parse_count_is_growth_witness :
  1 ≤ 2
  ∧ Z.of_nat (length (required_list_get_values (mk_required_list "files" "inputs" ["z"; "a"; "b"])))
    = Z.of_nat (length (required_list_get_values (mk_required_list "files" "inputs" ["z"]))) + 2
  ∧ required_list_get_values (mk_required_list "files" "inputs" ["z"; "a"; "b"]) ≠ [].
Proof.
  destruct (list_parse_count_is_growth parse_string ["a"; "b"; "--flag"] 2 2) as [_ Hrl]; [lia|].
  exact (Hrl (mk_required_list "files" "inputs" ["z"])
             (mk_required_list "files" "inputs" ["z"; "a"; "b"]) eq_refl).
Defined.

Lemma list_parse_accumulates_over_calls_witness :
  ∃ xss : list (list Z),
    Forall2 (λ call xs, 1 ≤ call.2 ∧ mapM parse_int (take (Z.to_nat call.2) call.1) = Some xs)
      [(["1"; "2"], 2); (["3"; "x"], 1); (["4"], 1)] xss
    ∧ optional_list_get_values (mk_optional_list "n" "nums" "numbers" [0; 1; 2; 3; 4])
      = optional_list_get_values (mk_optional_list "n" "nums" "numbers" [0]) ++ concat xss.
Proof.
  destruct (list_parse_accumulates_over_calls parse_int
              [(["1"; "2"], 2); (["3"; "x"], 1); (["4"], 1)]) as [Hol _].
  exact (Hol (mk_optional_list "n" "nums" "numbers" [0])
             (mk_optional_list "n" "nums" "numbers" [0; 1; 2; 3; 4]) eq_refl).
Defined.

Lemma value_unset_until_first_parse_witness :
  (optional_value_get_value (mk_optional_value "n" "num" "a number" (Some 8)) = None
   ↔ [(["7"], 1); (["8"], 1)] = [])
  ∧ (optional_value_get_value (mk_optional_value "n" "num" "a number" (@None Z)) = None
     ↔ @nil (list string * Z) = []).
Proof.
  split.
  - destruct (value_unset_until_first_parse parse_int [(["7"], 1); (["8"], 1)]) as [Hov _].
    exact (Hov (mk_optional_value "n" "num" "a number" None)
               (mk_optional_value "n" "num" "a number" (Some 8)) eq_refl eq_refl).
  - destruct (value_unset_until_first_parse parse_int []) as [Hov _].
    exact (Hov (mk_optional_value "n" "num" "a number" None)
               (mk_optional_value "n" "num" "a number" None) eq_refl eq_refl).
Defined.

Lemma add_optional_arg_returns_iff_new_witness :
  (∃ h c, add_optional_arg (class_optional_value builtin_int) verbose_root "n" "num" "a number"
          = Returned h c)
  ∧ _optional
      (with_optional verbose_root
         (_optional verbose_root
          ++ [make_unique_optional builtin_type (class_optional_value builtin_int)
                "n" "num" "a number"]))
    = _optional verbose_root
      ++ [make_unique_optional builtin_type (class_optional_value builtin_int)
            "n" "num" "a number"].
Proof.
  destruct (add_optional_arg_returns_iff_new (class_optional_value builtin_int) verbose_root
              "n" "num" "a number") as [Hiff Hshape].
  split.
  - apply Hiff. intros o ->%list_elem_of_singleton. split; discriminate.
  - exact (proj1 (Hshape 1%nat _ eq_refl)).
Defined.

Lemma add_required_arg_returns_iff_new_witness :
  (∃ c, add_required_arg (class_required_list builtin_string) count_root "files" "inputs"
        = Returned () c)
  ∧ _optional
      (with_required count_root
         (_required count_root
          ++ [make_unique_argument builtin_type (class_required_list builtin_string)
                "files" "inputs"]))
    = _optional count_root.
Proof.
  destruct (add_required_arg_returns_iff_new (class_required_list builtin_string) count_root
              "files" "inputs") as [Hiff Hshape].
  split.
  - apply Hiff. intros a ->%list_elem_of_singleton. discriminate.
  - destruct (Hshape _ eq_refl) as (_ & Hopt & _). exact Hopt.
Defined.

Lemma registration_keeps_registries_distinct_witness :
  distinct_flags
    (with_optional verbose_root
       (_optional verbose_root
        ++ [make_unique_optional builtin_type (class_optional_value builtin_int)
              "n" "num" "a number"])).
Proof.
  destruct (registration_keeps_registries_distinct verbose_root) as [Hopt _].
  - split; apply NoDup_singleton.
  - constructor.
  - exact (proj1 (Hopt (class_optional_value builtin_int) "n"%char "num" "a number"
                    1%nat _ eq_refl)).
Defined.

Lemma register_each_returns_iff_distinct_witness :
  ∃ c, register_each (new_command "root" "the root")
         [register_optional class_optional_flag "v" "verbose" "more output";
          register_required (class_required_value builtin_int) "count" "how many";
          register_optional (class_optional_list builtin_string) "f" "files" "inputs"]
       = Returned () c.
Proof.
  apply (register_each_returns_iff_distinct (new_command "root" "the root")); [done|done|].
  split_and!; simpl.
  - apply list.NoDup_cons. split; [|apply NoDup_singleton].
    intros Hin%list_elem_of_singleton. discriminate.
  - apply list.NoDup_cons. split; [|apply NoDup_singleton].
    intros Hin%list_elem_of_singleton. discriminate.
  - apply NoDup_singleton.
Defined.

Lemma register_each_appends_in_order_witness :
  _optional files_root !! 0%nat
  = Some (ptr_optional_flag (mk_optional_flag "f" "flag" "a flag" 0 false))
  ∧ ∀ h o, _optional (new_command "root" "the root") !! h = Some o →
           _optional files_root !! h = Some o.
Proof.
  destruct (register_each_appends_in_order (new_command "root" "the root") files_root
              [register_required (class_required_list builtin_string) "files" "inputs";
               register_optional class_optional_flag "f" "flag" "a flag"] eq_refl)
    as (Hopt & _ & Hkeep & _).
  split; [by rewrite Hopt | exact Hkeep].
Defined.

Lemma retrieval_returns_only_matching_specs_witness :
  ptr_optional_flag (mk_optional_flag "v" "verbose" "more output" 0 false)
    ∈ _optional verbose_root
  ∧ dynamic_class_optional
      (ptr_optional_flag (den:=builtin_type) (mk_optional_flag "v" "verbose" "more output" 0 false))
    = class_optional_flag.
Proof.
  destruct (retrieval_returns_only_matching_specs verbose_root) as [Hopt _].
  destruct (Hopt class_optional_flag "verbose"
              (ptr_optional_flag (mk_optional_flag "v" "verbose" "more output" 0 false))
              verbose_root eq_refl) as (_ & Hin & _ & Hclass).
  split; [exact Hin | exact Hclass].
Defined.

Lemma every_registered_spec_is_retrievable_witness :
  get_opt_flag files_root "flag"
  = Returned (ptr_optional_flag (mk_optional_flag "f" "flag" "a flag" 0 false)) files_root
  ∧ get_req_list builtin_string files_root "files"
    = Returned (ptr_required_list builtin_string (mk_required_list "files" "inputs" []))
        files_root.
Proof.
  destruct (every_registered_spec_is_retrievable files_root) as [Hopt Hreq].
  split.
  - exact (Hopt ltac:(split; apply NoDup_singleton) 0%nat
             (ptr_optional_flag (mk_optional_flag "f" "flag" "a flag" 0 false)) eq_refl).
  - exact (Hreq ltac:(apply NoDup_singleton) 0%nat
             (ptr_required_list builtin_string (mk_required_list "files" "inputs" [])) eq_refl).
Defined.

Lemma retrieval_under_wrong_class_is_undefined_witness :
  get_opt_value builtin_int verbose_root "verbose" = Undefined
  ∧ get_req_list builtin_int count_root "count" = Undefined.
Proof.
  destruct (retrieval_under_wrong_class_is_undefined verbose_root) as [Hopt _].
  destruct (retrieval_under_wrong_class_is_undefined count_root) as [_ Hreq].
  split.
  - refine (Hopt ltac:(split; apply NoDup_singleton) (class_optional_value builtin_int) 0%nat
              (ptr_optional_flag (mk_optional_flag "v" "verbose" "more output" 0 false))
              eq_refl _).
    discriminate.
  - refine (Hreq ltac:(apply NoDup_singleton) (class_required_list builtin_int) 0%nat
              (ptr_required_value builtin_int (mk_required_value "count" "how many" None))
              eq_refl _).
    discriminate.
Defined.

Lemma registered_spec_is_retrieved_by_name_witness :
  get_req_value builtin_int count_root "count"
  = Returned (ptr_required_value builtin_int (mk_required_value "count" "how many" None))
      count_root
  ∧ get_opt_flag verbose_root "verbose"
    = Returned (ptr_optional_flag (mk_optional_flag "v" "verbose" "more output" 0 false))
        verbose_root.
Proof.
  split.
  - destruct (registered_spec_is_retrieved_by_name (new_command "root" "the root") count_root)
      as [_ Hreq].
    exact (Hreq (class_required_value builtin_int) "count" "how many" eq_refl).
  - destruct (registered_spec_is_retrieved_by_name (new_command "root" "the root") verbose_root)
      as [Hopt _].
    exact (proj1 (Hopt class_optional_flag "v"%char "verbose" "more output" 0%nat eq_refl)).
Defined.

Lemma retrieval_survives_registration_witness :
  ∃ c, register_each verbose_root
         [register_optional (class_optional_value builtin_int) "n" "num" "a number";
          register_required (class_required_value builtin_int) "count" "how many"]
       = Returned () c
       ∧ get_opt_flag c "verbose"
         = Returned (ptr_optional_flag (mk_optional_flag "v" "verbose" "more output" 0 false)) c.
Proof.
  eexists. split; [reflexivity|].
  destruct (retrieval_survives_registration verbose_root
              [register_optional (class_optional_value builtin_int) "n" "num" "a number";
               register_required (class_required_value builtin_int) "count" "how many"]
              _ eq_refl) as [Hopt _].
  exact (Hopt class_optional_flag "verbose" _ eq_refl).
Defined.

Lemma add_req_list_with_flag_registers_optional_witness :
  ∃ c, add_req_list_flag builtin_string count_root "f" "files" "inputs" = Returned 0%nat c
       ∧ _required c = _required count_root
       ∧ get_opt_list builtin_string c "files"
         = Returned (ptr_optional_list builtin_string (mk_optional_list "f" "files" "inputs" [])) c
       ∧ get_req_list builtin_string c "files" = Aborted.
Proof.
  eexists. split; [reflexivity|].
  destruct (add_req_list_with_flag_registers_optional builtin_string count_root _
              "f" "files" "inputs" 0 eq_refl) as (Hreq & Hopt & Habort).
  split_and!; [exact Hreq | exact Hopt |].
  apply Habort. intros a ->%list_elem_of_singleton. discriminate.
Defined.
